(** * Barge stability: the buoyancy and tilt core of [script.js]

    A shallow embedding of the classes [Float], [Item] and [Barge] of
    [src/script.js] and of the property-panel handler
    [updateFloatProperties], followed by the properties of the
    specification that concern them.

    Modelling conventions.
    - A JavaScript number is a real number ([R]); [Math.cos], [Math.sin],
      [Math.max] and [Math.min] are [cos], [sin], [Rmax] and [Rmin].
      Rounding, infinities and signed zeros are not modelled.  The value
      [NaN] only matters where the source tests for it ([parseFloat]
      followed by [isNaN]): there a parsed input is an [option R], with
      [None] for [NaN].
    - A [THREE.Vector3] / [THREE.Euler] is a record of three reals; the
      mesh of a float or item is represented by its [position] and
      [rotation]; colours, geometries, materials, the scene graph, the
      invisible drag plane and the DOM are presentation only and left out.
    - Methods mutate [this]; here they take the object and return the new
      one.  A property access on [undefined] raises [TypeError] in the
      source; such a method returns [option], with [None] for the
      exception. *)

From Stdlib Require Import Reals Lra List Permutation Arith Lia.
Import ListNotations.
Open Scope R_scope.

(** ** Vectors *)

Record Vector3 : Type := mkVector3 { vx : R; vy : R; vz : R }.

(** The error monad for [TypeError]. *)
Definition bind {A B : Type} (m : option A) (k : A -> option B) : option B :=
  match m with
  | Some a => k a
  | None => None
  end.

Notation "x <- m ;; k" := (bind m (fun x => k))
  (at level 61, m at next level, right associativity).

(** [for (let x of xs) { ... }] with a body that may raise. *)
Fixpoint forEach {A : Type} (body : A -> option A) (xs : list A) : option (list A) :=
  match xs with
  | [] => Some []
  | x :: rest =>
      x' <- body x ;;
      rest' <- forEach body rest ;;
      Some (x' :: rest')
  end.

(** ** class Float *)

Module Float.

(** [restPosition] is not set by the constructor: [addFloat] assigns it. *)
Record t : Type := mk {
  id : nat;
  width : R;
  height : R;
  depth : R;
  weight : R;
  waterDensity : R;
  position : Vector3;
  rotation : Vector3;
  restPosition : option Vector3
}.

Definition new (i : nat) : t :=
  {| id := i;
     width := 20;
     height := 7;
     depth := 10;
     weight := 20000;
     waterDensity := 62.4;
     position := mkVector3 0 0 0;
     rotation := mkVector3 0 0 0;
     restPosition := None |}.

Definition set_width (f : t) (v : R) : t :=
  mk (id f) v (height f) (depth f) (weight f) (waterDensity f)
     (position f) (rotation f) (restPosition f).

Definition set_height (f : t) (v : R) : t :=
  mk (id f) (width f) v (depth f) (weight f) (waterDensity f)
     (position f) (rotation f) (restPosition f).

Definition set_depth (f : t) (v : R) : t :=
  mk (id f) (width f) (height f) v (weight f) (waterDensity f)
     (position f) (rotation f) (restPosition f).

Definition set_weight (f : t) (v : R) : t :=
  mk (id f) (width f) (height f) (depth f) v (waterDensity f)
     (position f) (rotation f) (restPosition f).

Definition set_position (f : t) (p : Vector3) : t :=
  mk (id f) (width f) (height f) (depth f) (weight f) (waterDensity f)
     p (rotation f) (restPosition f).

Definition set_rotation (f : t) (r : Vector3) : t :=
  mk (id f) (width f) (height f) (depth f) (weight f) (waterDensity f)
     (position f) r (restPosition f).

Definition set_restPosition (f : t) (p : Vector3) : t :=
  mk (id f) (width f) (height f) (depth f) (weight f) (waterDensity f)
     (position f) (rotation f) (Some p).

Definition setPosition (f : t) (x y z : R) : t :=
  set_position f (mkVector3 x y z).

Definition getPosition (f : t) : Vector3 := position f.

Definition calculateDraft (f : t) : R :=
  let volumeNeeded := weight f / waterDensity f in
  let draft := volumeNeeded / (width f * depth f) in
  draft.

End Float.

(** ** class Item *)

Module Item.

Record t : Type := mk {
  width : R;
  height : R;
  depth : R;
  position : Vector3;
  rotation : Vector3
}.

Definition new : t :=
  {| width := 2;
     height := 2;
     depth := 2;
     position := mkVector3 0 0 0;
     rotation := mkVector3 0 0 0 |}.

Definition set_position (i : t) (p : Vector3) : t :=
  mk (width i) (height i) (depth i) p (rotation i).

Definition set_rotation (i : t) (r : Vector3) : t :=
  mk (width i) (height i) (depth i) (position i) r.

Definition setPosition (i : t) (x y z : R) : t :=
  set_position i (mkVector3 x y z).

Definition getPosition (i : t) : Vector3 := position i.

End Item.

(** ** class Barge *)

Module Barge.

Record t : Type := mk {
  floats : list Float.t;
  items : list Item.t;
  nextFloatId : nat;
  centerFlotation : Vector3;
  tiltX : R;
  tiltZ : R
}.

Definition set_floats (b : t) (fs : list Float.t) : t :=
  mk fs (items b) (nextFloatId b) (centerFlotation b) (tiltX b) (tiltZ b).

Definition set_items (b : t) (its : list Item.t) : t :=
  mk (floats b) its (nextFloatId b) (centerFlotation b) (tiltX b) (tiltZ b).

Definition set_nextFloatId (b : t) (n : nat) : t :=
  mk (floats b) (items b) n (centerFlotation b) (tiltX b) (tiltZ b).

Definition set_centerFlotation (b : t) (c : Vector3) : t :=
  mk (floats b) (items b) (nextFloatId b) c (tiltX b) (tiltZ b).

Definition set_tilt (b : t) (tx tz : R) : t :=
  mk (floats b) (items b) (nextFloatId b) (centerFlotation b) tx tz.

(** The accumulators [totalArea], [weightedX], [weightedZ] of the loop in
    [calculateCenterFlotation]. *)
Record Sums : Type := mkSums { totalArea : R; weightedX : R; weightedZ : R }.

Definition accumulate (acc : Sums) (float : Float.t) : Sums :=
  let area := Float.width float * Float.depth float in
  let pos := Float.getPosition float in
  mkSums (totalArea acc + area)
         (weightedX acc + vx pos * area)
         (weightedZ acc + vz pos * area).

Definition centroid (fs : list Float.t) : Vector3 :=
  let s := fold_left accumulate fs (mkSums 0 0 0) in
  mkVector3 (weightedX s / totalArea s) 0 (weightedZ s / totalArea s).

Definition calculateCenterFlotation (b : t) : t :=
  match floats b with
  | [] => b
  | _ :: _ => set_centerFlotation b (centroid (floats b))
  end.

Definition calculateArea (b : t) : R :=
  fold_left (fun totalArea float => totalArea + Float.width float * Float.depth float)
            (floats b) 0.

(** [addFloat] returns the new float; the pair is (new barge, float). *)
Definition addFloat (b : t) : t * Float.t :=
  let float := Float.new (nextFloatId b) in
  let b := set_nextFloatId b (S (nextFloatId b)) in
  let draft := Float.calculateDraft float in
  let yPosition := - draft + Float.height float / 2 in
  let '(xPosition, zPosition) :=
    match floats b with
    | [] => (0, 0)
    | f0 :: rest =>
        let lastFloat := last rest f0 in
        let lastPos := Float.getPosition lastFloat in
        (vx lastPos + Float.width lastFloat / 2 + Float.width float / 2,
         vz lastPos)
    end in
  let float := Float.setPosition float xPosition yPosition zPosition in
  let float := Float.set_restPosition float (mkVector3 xPosition yPosition zPosition) in
  let b := set_floats b (floats b ++ [float]) in
  (calculateCenterFlotation b, float).

(** [this.floats[0]] is [undefined] on an empty list, and the call of
    [getPosition] on it raises. *)
Definition addItem (b : t) : option (t * Item.t) :=
  let item := Item.new in
  match floats b with
  | [] => None
  | float :: _ =>
      let initialY :=
        vy (Float.getPosition float) + Float.height float / 2 + Item.height item / 2 in
      let item :=
        Item.setPosition item (vx (centerFlotation b)) initialY (vz (centerFlotation b)) in
      Some (set_items b (items b ++ [item]), item)
  end.

Definition maxTilt : R := 0.05.

Definition calculateTilt (b : t) : t :=
  match items b with
  | [] => b
  | item :: _ =>
      let itemPos := Item.getPosition item in
      let offsetX := vx itemPos - vx (centerFlotation b) in
      let offsetZ := vz itemPos - vz (centerFlotation b) in
      set_tilt b (- (offsetZ / 5) * maxTilt) ((offsetX / 10) * maxTilt)
  end.

(** The body of the loop of [applyTiltToFloats]. *)
Definition tiltFloat (b : t) (float : Float.t) : option Float.t :=
  match Float.restPosition float with
  | None => None
  | Some rest =>
      let restX := vx rest in
      let restY := vy rest in
      let restZ := vz rest in
      let relativeX := restX - vx (centerFlotation b) in
      let relativeZ := restZ - vz (centerFlotation b) in
      let relativeY := restY - vy (centerFlotation b) in
      let cosX := cos (- tiltX b) in
      let sinX := sin (- tiltX b) in
      let cosZ := cos (- tiltZ b) in
      let sinZ := sin (- tiltZ b) in
      let tempX := relativeX * cosZ - relativeY * sinZ in
      let tempY := relativeX * sinZ + relativeY * cosZ in
      let tempZ := relativeZ in
      let newY := tempY * cosX - tempZ * sinX in
      let newZ := tempY * sinX + tempZ * cosX in
      let newX := tempX in
      let float :=
        Float.set_position float
          (mkVector3 (vx (centerFlotation b) + newX)
                     (vy (centerFlotation b) + newY)
                     (vz (centerFlotation b) + newZ)) in
      Some (Float.set_rotation float
              (mkVector3 (- tiltX b) (vy (Float.rotation float)) (- tiltZ b)))
  end.

Definition applyTiltToFloats (b : t) : option t :=
  fs <- forEach (tiltFloat b) (floats b) ;;
  Some (set_floats b fs).

(** The body of the loop of [updateItemPositions]. *)
Definition placeItem (b : t) (item : Item.t) : option Item.t :=
  let itemPos := Item.getPosition item in
  match floats b with
  | [] => None
  | float :: _ =>
      match Float.restPosition float with
      | None => None
      | Some rest =>
          let centerSurfaceY := vy rest + Float.height float / 2 in
          let relativeX := vx itemPos - vx (centerFlotation b) in
          let relativeZ := vz itemPos - vz (centerFlotation b) in
          let surfacePoint :=
            mkVector3 relativeX (centerSurfaceY - vy (centerFlotation b)) relativeZ in
          let cosX := cos (- tiltX b) in
          let sinX := sin (- tiltX b) in
          let cosZ := cos (- tiltZ b) in
          let sinZ := sin (- tiltZ b) in
          let y1 := vy surfacePoint * cosX - vz surfacePoint * sinX in
          let z1 := vy surfacePoint * sinX + vz surfacePoint * cosX in
          let x1 := vx surfacePoint in
          let x2 := x1 * cosZ - y1 * sinZ in
          let y2 := x1 * sinZ + y1 * cosZ in
          let z2 := z1 in
          let rotatedSurfaceY := vy (centerFlotation b) + y2 in
          let item :=
            Item.set_position item
              (mkVector3 (vx itemPos) (rotatedSurfaceY + Item.height item / 2) (vz itemPos)) in
          Some (Item.set_rotation item
                  (mkVector3 (- tiltX b) (vy (Item.rotation item)) (- tiltZ b)))
      end
  end.

Definition updateItemPositions (b : t) : option t :=
  its <- forEach (placeItem b) (items b) ;;
  Some (set_items b its).

Definition update (b : t) : option t :=
  let b := calculateCenterFlotation b in
  let b := calculateTilt b in
  b <- applyTiltToFloats b ;;
  updateItemPositions b.

(** [items[itemIndex]] is an object: writing its position updates the
    element of the array in place. *)
Fixpoint replace {A : Type} (n : nat) (x : A) (xs : list A) : list A :=
  match n, xs with
  | _, [] => []
  | O, _ :: rest => x :: rest
  | S n', y :: rest => y :: replace n' x rest
  end.

(** The body of [moveItem] up to, and without, its call of [update]. *)
Definition writeItem (b : t) (itemIndex : nat) (x z : R) : option t :=
  match floats b, nth_error (items b) itemIndex with
  | [], _ => None
  | _ :: _, None => None
  | mainFloat :: _, Some item =>
      let halfWidth := Float.width mainFloat / 2 - 1 in
      let halfDepth := Float.depth mainFloat / 2 - 1 in
      let constrainedX := Rmax (- halfWidth) (Rmin halfWidth x) in
      let constrainedZ := Rmax (- halfDepth) (Rmin halfDepth z) in
      let item :=
        Item.set_position item
          (mkVector3 constrainedX (vy (Item.position item)) constrainedZ) in
      Some (set_items b (replace itemIndex item (items b)))
  end.

Definition moveItem (b : t) (itemIndex : nat) (x z : R) : option t :=
  if (itemIndex <? length (items b))%nat then
    b <- writeItem b itemIndex x z ;;
    update b
  else Some b.

(** [constructor(scene)]: the empty barge, then [addFloat] and [addItem]. *)
Definition empty : t :=
  {| floats := [];
     items := [];
     nextFloatId := 1;
     centerFlotation := mkVector3 0 0 0;
     tiltX := 0;
     tiltZ := 0 |}.

Definition new : option t :=
  let b := fst (addFloat empty) in
  r <- addItem b ;;
  Some (fst r).

End Barge.

(** ** The property panel: [updateFloatProperties]

    The values of the input fields after [parseFloat]: [None] is [NaN].
    [floatLength] edits [width] and [floatWidth] edits [depth], as in the
    source.  [manualYChange] tells whether the Y field has the focus. *)

Record PanelInput : Type := mkPanelInput {
  floatLength : option R;
  floatWidth : option R;
  floatHeight : option R;
  floatWeight : option R;
  floatPosX : option R;
  floatPosY : option R;
  floatPosZ : option R;
  manualYChange : bool
}.

(** [if (!isNaN(v) && v > 0) { float.attr = v; recalculateY = true; }] on
    the pair (float, recalculateY). *)
Definition editPositive (set : Float.t -> R -> Float.t) (v : option R)
  (st : Float.t * bool) : Float.t * bool :=
  match v with
  | Some r => if Rlt_dec 0 r then (set (fst st) r, true) else st
  | None => st
  end.

(** [if (!isNaN(v)) { float.mesh.position.c = v; }] *)
Definition editCoordinate (set : Vector3 -> R -> Vector3) (v : option R)
  (float : Float.t) : Float.t :=
  match v with
  | Some r => Float.set_position float (set (Float.position float) r)
  | None => float
  end.

Definition set_vx (p : Vector3) (x : R) : Vector3 := mkVector3 x (vy p) (vz p).
Definition set_vy (p : Vector3) (y : R) : Vector3 := mkVector3 (vx p) y (vz p).
Definition set_vz (p : Vector3) (z : R) : Vector3 := mkVector3 (vx p) (vy p) z.

Definition updateFloatProperties (barge : Barge.t) (input : PanelInput) : option Barge.t :=
  match Barge.floats barge with
  | [] => None
  | float :: others =>
      let st := (float, false) in
      let st := editPositive Float.set_width (floatLength input) st in
      let st := editPositive Float.set_depth (floatWidth input) st in
      let st := editPositive Float.set_height (floatHeight input) st in
      let st := editPositive Float.set_weight (floatWeight input) st in
      let '(float, recalculateY) := st in
      let float := editCoordinate set_vx (floatPosX input) float in
      let float := editCoordinate set_vz (floatPosZ input) float in
      let float :=
        if andb recalculateY (negb (manualYChange input)) then
          let draft := Float.calculateDraft float in
          let yPosition := - draft + Float.height float / 2 in
          Float.set_position float (set_vy (Float.position float) yPosition)
        else if manualYChange input then
          editCoordinate set_vy (floatPosY input) float
        else float in
      let barge := Barge.set_floats barge (float :: others) in
      let barge := Barge.calculateCenterFlotation barge in
      Barge.update barge
  end.

(** ** The application

    What the event handlers and the animation loop do to the global
    [barge]: [animate] calls [update] on every frame, [addNewFloat] and
    [addNewItem] call [addFloat] and [addItem], dragging and the
    coordinate fields call [moveItem], and the property panel calls
    [updateFloatProperties]. *)

Inductive Action : Type :=
| Animate
| AddNewFloat
| AddNewItem
| MoveItem (itemIndex : nat) (x z : R)
| EditFloat (input : PanelInput).

Definition perform (a : Action) (b : Barge.t) : option Barge.t :=
  match a with
  | Animate => Barge.update b
  | AddNewFloat => Some (fst (Barge.addFloat b))
  | AddNewItem => r <- Barge.addItem b ;; Some (fst r)
  | MoveItem i x z => Barge.moveItem b i x z
  | EditFloat input => updateFloatProperties b input
  end.

(** The barges that the application can hold: the constructed one and
    whatever the actions make of it. *)
Inductive reachable : Barge.t -> Prop :=
| reachable_new : forall b, Barge.new = Some b -> reachable b
| reachable_step : forall a b b',
    reachable b -> perform a b = Some b' -> reachable b'.

(** ** Well-formed barges

    What every barge of the application satisfies (see
    [reachable_invariant]): the accesses [floats[0]], [items[0]] and
    [float.restPosition] find something, the dimensions that the source
    divides by are positive, and identifiers are below the next one. *)

Definition hasRest (f : Float.t) : Prop :=
  exists rest, Float.restPosition f = Some rest.

Definition positiveFloat (f : Float.t) : Prop :=
  0 < Float.width f /\ 0 < Float.height f /\ 0 < Float.depth f /\
  0 < Float.weight f /\ 0 < Float.waterDensity f.

Record invariant (b : Barge.t) : Prop := mkInvariant {
  inv_floats : Barge.floats b <> [];
  inv_items : Barge.items b <> [];
  inv_rest : Forall hasRest (Barge.floats b);
  inv_positive : Forall positiveFloat (Barge.floats b);
  inv_ids : Forall (fun f => (Float.id f < Barge.nextFloatId b)%nat) (Barge.floats b)
}.

(** ** The words of the specification *)

(** Sum of a list of reals. *)
Definition sumR (l : list R) : R := fold_right Rplus 0 l.

Definition footprintArea (f : Float.t) : R := Float.width f * Float.depth f.

(** Rotation by [theta] in the X/Y plane (about the Z axis). *)
Definition rotateAboutZ (theta : R) (p : Vector3) : Vector3 :=
  mkVector3 (vx p * cos theta - vy p * sin theta)
            (vx p * sin theta + vy p * cos theta)
            (vz p).

(** Rotation by [theta] in the Y/Z plane (about the X axis). *)
Definition rotateAboutX (theta : R) (p : Vector3) : Vector3 :=
  mkVector3 (vx p)
            (vy p * cos theta - vz p * sin theta)
            (vy p * sin theta + vz p * cos theta).

Definition vadd (p q : Vector3) : Vector3 :=
  mkVector3 (vx p + vx q) (vy p + vy q) (vz p + vz q).

Definition vsub (p q : Vector3) : Vector3 :=
  mkVector3 (vx p - vx q) (vy p - vy q) (vz p - vz q).

(** Consecutive pontoons touch: the left edge of each is the right edge
    of the one before it, at the same z. *)
Fixpoint tiled (fs : list Float.t) : Prop :=
  match fs with
  | [] => True
  | f :: rest =>
      match rest with
      | [] => True
      | g :: _ =>
          vx (Float.position g) - Float.width g / 2
            = vx (Float.position f) + Float.width f / 2 /\
          vz (Float.position g) = vz (Float.position f)
      end /\ tiled rest
  end.

(** [n] calls of [addFloat] in a row. *)
Fixpoint addFloats (n : nat) (b : Barge.t) : Barge.t :=
  match n with
  | O => b
  | S n' => addFloats n' (fst (Barge.addFloat b))
  end.

(** A panel value that the specification calls malformed: not a number,
    or not positive. *)
Definition malformed (v : option R) : Prop :=
  match v with
  | None => True
  | Some r => r <= 0
  end.

(** The clamp of [moveItem] in the words of the specification. *)
Definition withinDeck (half v : R) : Prop := - half <= v <= half.

(** The barge on which the two loops of [update] run. *)
Definition tilted (b : Barge.t) : Barge.t :=
  Barge.calculateTilt (Barge.calculateCenterFlotation b).

(** ** Sample barges *)

(** The barge that [new Barge(scene)] builds. *)
Definition constructed : Barge.t :=
  match Barge.new with
  | Some b => b
  | None => Barge.empty
  end.

(** Two default pontoons side by side, no item. *)
Definition twoFloats : Barge.t := addFloats 2 Barge.empty.

(** The rest height of a default pontoon: -draft + height / 2. *)
Definition defaultRestY : R := - (20000 / 62.4 / (20 * 10)) + 7 / 2.

(** The default pontoon at the origin and the item on top of it. *)
Definition defaultFloat : Float.t :=
  {| Float.id := 1;
     Float.width := 20;
     Float.height := 7;
     Float.depth := 10;
     Float.weight := 20000;
     Float.waterDensity := 62.4;
     Float.position := mkVector3 0 defaultRestY 0;
     Float.rotation := mkVector3 0 0 0;
     Float.restPosition := Some (mkVector3 0 defaultRestY 0) |}.

Definition itemAt (x z : R) : Item.t :=
  {| Item.width := 2;
     Item.height := 2;
     Item.depth := 2;
     Item.position := mkVector3 x (defaultRestY + 7 / 2 + 2 / 2) z;
     Item.rotation := mkVector3 0 0 0 |}.

(** The constructed barge once [moveItem(0, 10, 0)] has written the
    clamped position of the item and before it calls [update]. *)
Definition dragged : Barge.t :=
  Barge.mk [defaultFloat] [itemAt 9 0] 2 (mkVector3 0 0 0) 0 0.

(** What an attribute becomes when the panel offers [v] for it: the
    guard [!isNaN(v) && v > 0] of [updateFloatProperties]. *)
Definition accepted (v : option R) (old : R) : R :=
  match v with
  | Some r => if Rlt_dec 0 r then r else old
  | None => old
  end.

(** The attributes of a pontoon that the rotation never touches. *)
Definition attributes (f : Float.t)
  : nat * R * R * R * R * R * option Vector3 :=
  (Float.id f, Float.width f, Float.height f, Float.depth f, Float.weight f,
   Float.waterDensity f, Float.restPosition f).

(** The panel of the default pontoon with 1 typed into the length field:
    the other fields hold what [showFloatProperties] put there. *)
Definition narrowInput : PanelInput :=
  {| floatLength := Some 1;
     floatWidth := Some 10;
     floatHeight := Some 7;
     floatWeight := Some 20000;
     floatPosX := Some 0;
     floatPosY := Some 1.9;
     floatPosZ := Some 0;
     manualYChange := false |}.

(** The panel with malformed values in the four attribute fields: length
    0, an unparsable width, height -3 and an unparsable weight. *)
Definition malformedInput : PanelInput :=
  {| floatLength := Some 0;
     floatWidth := None;
     floatHeight := Some (-3);
     floatWeight := None;
     floatPosX := Some 5;
     floatPosY := None;
     floatPosZ := None;
     manualYChange := false |}.

(** ** The camera

    Of the camera only [camera.position] is kept; [camera.lookAt(0, 0, 0)]
    sets its orientation, which nothing below reads. *)

(** The [wheel] listener of [setupEventListeners]. *)
Definition zoom (position : Vector3) (deltaY : R) : Vector3 :=
  let zoomSpeed := 2 in
  let direction := if Rlt_dec 0 deltaY then 1 else -1 in
  let factor := 1 + direction * zoomSpeed * 0.01 in
  mkVector3 (vx position * factor) (vy position * factor) (vz position * factor).

Section Orbit.

(** [Math.atan2], of which nothing is assumed. *)
Variable atan2 : R -> R -> R.

(** The [mousemove] listener of [setupEventListeners] while the right
    button is held; [deltaX] and [deltaY] are the mouse displacements. *)
Definition orbit (position : Vector3) (deltaX deltaY : R) : Vector3 :=
  let radius := sqrt (vx position ^ 2 + vy position ^ 2 + vz position ^ 2) in
  let theta := atan2 (vz position) (vx position) in
  let phi := acos (vy position / radius) in
  let newTheta := theta + deltaX * 0.01 in
  let newPhi := Rmax 0.1 (Rmin (PI - 0.1) (phi - deltaY * 0.01)) in
  mkVector3 (radius * sin newPhi * cos newTheta)
            (radius * cos newPhi)
            (radius * sin newPhi * sin newTheta).

End Orbit.

(** ** Distances *)

(** The square of the distance between two points. *)
Definition distance2 (p q : Vector3) : R :=
  (vx p - vx q) ^ 2 + (vy p - vy q) ^ 2 + (vz p - vz q) ^ 2.

(** Where the rotation of [applyTiltToFloats] puts a point [rest] for a
    given center and given angles. *)
Definition placed (center : Vector3) (tiltX tiltZ : R) (rest : Vector3) : Vector3 :=
  vadd center (rotateAboutX (- tiltX) (rotateAboutZ (- tiltZ) (vsub rest center))).

(** ** The layout of the pontoons *)

(** A pontoon with the geometry and weight that the constructor gives. *)
Definition isDefault (f : Float.t) : Prop :=
  Float.width f = 20 /\ Float.height f = 7 /\ Float.depth f = 10 /\
  Float.weight f = 20000.

(** A pontoon whose rest position is at height [y]. *)
Definition restsAt (y : R) (f : Float.t) : Prop :=
  exists x z : R, Float.restPosition f = Some (mkVector3 x y z).

(** What the actions of the application keep of the pontoon list. *)
Record layout (b : Barge.t) : Prop := mkLayout {
  layout_ids : map Float.id (Barge.floats b) = seq 1 (length (Barge.floats b));
  layout_next : Barge.nextFloatId b = S (length (Barge.floats b));
  layout_others : Forall isDefault (tl (Barge.floats b));
  layout_density : Forall (fun f => Float.waterDensity f = 62.4) (Barge.floats b);
  layout_rest : Forall (restsAt defaultRestY) (Barge.floats b);
  layout_first :
    exists (f : Float.t) (fs : list Float.t),
      Barge.floats b = f :: fs
      /\ Float.restPosition f = Some (mkVector3 0 defaultRestY 0)
}.

(** Where a pontoon is and what it covers: x, z, width and depth. *)
Definition footprintOf (f : Float.t) : R * R * R * R :=
  (vx (Float.position f), vz (Float.position f), Float.width f, Float.depth f).

(** A row of [k] default pontoons from the origin along x. *)
Definition inRow (k : nat) (fs : list Float.t) : Prop :=
  map footprintOf fs = map (fun i => (20 * INR i, 0, 20, 10)) (seq 0 k).

(** The pontoon that [addFloat] adds to the constructed barge, and the
    barge with it. *)
Definition secondFloat : Float.t :=
  {| Float.id := 2;
     Float.width := 20;
     Float.height := 7;
     Float.depth := 10;
     Float.weight := 20000;
     Float.waterDensity := 62.4;
     Float.position := mkVector3 20 defaultRestY 0;
     Float.rotation := mkVector3 0 0 0;
     Float.restPosition := Some (mkVector3 20 defaultRestY 0) |}.

Definition twoPontoons : Barge.t :=
  Barge.mk [defaultFloat; secondFloat] [itemAt 0 0] 3 (mkVector3 10 0 0) 0 0.

(** * Properties *)

(** ** Loops *)

Section ForEach.
Context {A : Type}.
Implicit Types (body : A -> option A) (xs ys : list A).

Lemma forEach_Forall2 body xs ys :
  forEach body xs = Some ys -> Forall2 (fun x y => body x = Some y) xs ys.
Proof.
  revert ys; induction xs as [|x xs IH]; intros ys; simpl.
  - intros [= <-]; constructor.
  - destruct (body x) as [x'|] eqn:Hx; simpl; [|discriminate].
    destruct (forEach body xs) as [xs'|]; simpl; [|discriminate].
    intros [= <-]; constructor; auto.
Qed.

Lemma Forall2_forEach body xs ys :
  Forall2 (fun x y => body x = Some y) xs ys -> forEach body xs = Some ys.
Proof.
  induction 1 as [|x y xs ys Hx _ IH]; simpl; [reflexivity|].
  now rewrite Hx, IH.
Qed.

Lemma forEach_total body xs :
  Forall (fun x => exists y, body x = Some y) xs ->
  exists ys, forEach body xs = Some ys.
Proof.
  induction 1 as [|x xs [y Hy] _ [ys IH]]; simpl.
  - now exists [].
  - exists (y :: ys); now rewrite Hy, IH.
Qed.

Lemma forEach_length body xs ys :
  forEach body xs = Some ys -> length ys = length xs.
Proof.
  intros H; apply forEach_Forall2 in H.
  induction H; simpl; congruence.
Qed.

Lemma forEach_fixed body xs :
  Forall (fun x => body x = Some x) xs -> forEach body xs = Some xs.
Proof.
  intros H; apply Forall2_forEach.
  induction H; constructor; auto.
Qed.

End ForEach.

(** ** Draft *)

Lemma calculateDraft_depends_on_attributes (f g : Float.t) :
  Float.weight f = Float.weight g ->
  Float.waterDensity f = Float.waterDensity g ->
  Float.width f = Float.width g ->
  Float.depth f = Float.depth g ->
  Float.calculateDraft f = Float.calculateDraft g.
Proof.
  unfold Float.calculateDraft; intros -> -> -> ->; reflexivity.
Qed.

Lemma calculateDraft_positive (f : Float.t) :
  0 < Float.weight f -> 0 < Float.waterDensity f ->
  0 < Float.width f -> 0 < Float.depth f ->
  0 < Float.calculateDraft f.
Proof.
  intros Hw Hd Hx Hz; unfold Float.calculateDraft.
  apply Rdiv_lt_0_compat.
  - now apply Rdiv_lt_0_compat.
  - now apply Rmult_lt_0_compat.
Qed.

(** C4.  The draft of a pontoon is (weight / fluidDensity) / (width * depth);
    it is determined by these four attributes alone (two pontoons that
    agree on them have the same draft, whatever their position, rotation,
    height or identifier), and it is strictly positive when the four are. *)
Theorem calculateDraft_spec (f : Float.t) :
  Float.calculateDraft f
    = (Float.weight f / Float.waterDensity f) / (Float.width f * Float.depth f)
  /\ (forall g : Float.t,
        Float.weight g = Float.weight f ->
        Float.waterDensity g = Float.waterDensity f ->
        Float.width g = Float.width f ->
        Float.depth g = Float.depth f ->
        Float.calculateDraft g = Float.calculateDraft f)
  /\ (0 < Float.weight f -> 0 < Float.waterDensity f ->
      0 < Float.width f -> 0 < Float.depth f ->
      0 < Float.calculateDraft f).
Proof.
  split; [reflexivity|split].
  - intros g; apply calculateDraft_depends_on_attributes.
  - apply calculateDraft_positive.
Qed.

(** The default pontoon floats with a positive draft, and moving it does
    not change the draft. *)
Lemma calculateDraft_spec_witness :
  0 < Float.calculateDraft (Float.new 1)
  /\ Float.calculateDraft (Float.setPosition (Float.new 1) 3 4 5)
     = Float.calculateDraft (Float.new 1).
Proof.
  destruct (calculateDraft_spec (Float.new 1)) as [_ [Hpure Hpos]].
  split.
  - apply Hpos; simpl; lra.
  - apply Hpure; reflexivity.
Defined.

(** ** Center of flotation *)

Lemma fold_accumulate (fs : list Float.t) (acc : Barge.Sums) :
  fold_left Barge.accumulate fs acc
  = Barge.mkSums
      (Barge.totalArea acc + sumR (map footprintArea fs))
      (Barge.weightedX acc
       + sumR (map (fun f => vx (Float.position f) * footprintArea f) fs))
      (Barge.weightedZ acc
       + sumR (map (fun f => vz (Float.position f) * footprintArea f) fs)).
Proof.
  revert acc; induction fs as [|f fs IH]; intros acc; simpl.
  - destruct acc; simpl; f_equal; lra.
  - rewrite IH; unfold Barge.accumulate, Float.getPosition, footprintArea; simpl.
    f_equal; lra.
Qed.

Lemma centroid_sums (fs : list Float.t) :
  Barge.centroid fs
  = mkVector3
      (sumR (map (fun f => vx (Float.position f) * footprintArea f) fs)
       / sumR (map footprintArea fs))
      0
      (sumR (map (fun f => vz (Float.position f) * footprintArea f) fs)
       / sumR (map footprintArea fs)).
Proof.
  unfold Barge.centroid; rewrite fold_accumulate; simpl.
  now rewrite !Rplus_0_l.
Qed.

(** [calculateArea] is the sum of the footprints, the denominator of the
    center of flotation. *)
Lemma calculateArea_sum (b : Barge.t) :
  Barge.calculateArea b = sumR (map footprintArea (Barge.floats b)).
Proof.
  unfold Barge.calculateArea.
  assert (H : forall fs acc,
             fold_left (fun totalArea float =>
                          totalArea + Float.width float * Float.depth float) fs acc
             = acc + sumR (map footprintArea fs)).
  { induction fs as [|f fs IH]; intros acc; simpl; [lra|].
    rewrite IH; unfold footprintArea; lra. }
  rewrite H; lra.
Qed.

Lemma sumR_Permutation (l l' : list R) :
  Permutation l l' -> sumR l = sumR l'.
Proof.
  induction 1; simpl; lra.
Qed.

Lemma centroid_Permutation (fs fs' : list Float.t) :
  Permutation fs fs' -> Barge.centroid fs = Barge.centroid fs'.
Proof.
  intros H; rewrite !centroid_sums.
  rewrite (sumR_Permutation _ _ (Permutation_map footprintArea H)).
  rewrite (sumR_Permutation _ _
             (Permutation_map (fun f => vx (Float.position f) * footprintArea f) H)).
  rewrite (sumR_Permutation _ _
             (Permutation_map (fun f => vz (Float.position f) * footprintArea f) H)).
  reflexivity.
Qed.

Lemma calculateCenterFlotation_nonempty (b : Barge.t) :
  Barge.floats b <> [] ->
  Barge.calculateCenterFlotation b
  = Barge.set_centerFlotation b (Barge.centroid (Barge.floats b)).
Proof.
  unfold Barge.calculateCenterFlotation.
  destruct (Barge.floats b); [congruence | reflexivity].
Qed.

(** C7.  With at least one pontoon, [calculateCenterFlotation] sets the
    center to (sum of x * area / sum of area, 0, sum of z * area / sum of
    area) and changes nothing else; reordering the pontoon list gives the
    same center; with no pontoon the barge, and so its center, is left as
    it was. *)
Theorem calculateCenterFlotation_spec (b : Barge.t) (fs' : list Float.t) :
  (Barge.floats b <> [] ->
     Barge.calculateCenterFlotation b
     = Barge.set_centerFlotation b
         (mkVector3
            (sumR (map (fun f => vx (Float.position f) * footprintArea f) (Barge.floats b))
             / sumR (map footprintArea (Barge.floats b)))
            0
            (sumR (map (fun f => vz (Float.position f) * footprintArea f) (Barge.floats b))
             / sumR (map footprintArea (Barge.floats b)))))
  /\ (Permutation (Barge.floats b) fs' ->
        Barge.centerFlotation (Barge.calculateCenterFlotation (Barge.set_floats b fs'))
        = Barge.centerFlotation (Barge.calculateCenterFlotation b))
  /\ (Barge.floats b = [] -> Barge.calculateCenterFlotation b = b).
Proof.
  split; [|split].
  - intros H; rewrite calculateCenterFlotation_nonempty by assumption.
    now rewrite centroid_sums.
  - intros H; unfold Barge.calculateCenterFlotation; simpl.
    destruct (Barge.floats b) as [|f fs] eqn:E.
    + apply Permutation_nil in H; subst fs'; reflexivity.
    + destruct fs' as [|f' fs''].
      * apply Permutation_sym, Permutation_nil in H; discriminate.
      * simpl; symmetry; now apply centroid_Permutation.
  - intros H; unfold Barge.calculateCenterFlotation; now rewrite H.
Qed.

(** ** What each stage of [update] touches *)

Lemma calculateCenterFlotation_fields (b : Barge.t) :
  Barge.floats (Barge.calculateCenterFlotation b) = Barge.floats b /\
  Barge.items (Barge.calculateCenterFlotation b) = Barge.items b /\
  Barge.nextFloatId (Barge.calculateCenterFlotation b) = Barge.nextFloatId b /\
  Barge.tiltX (Barge.calculateCenterFlotation b) = Barge.tiltX b /\
  Barge.tiltZ (Barge.calculateCenterFlotation b) = Barge.tiltZ b.
Proof.
  unfold Barge.calculateCenterFlotation; destruct (Barge.floats b) eqn:E; simpl; auto.
Qed.

Lemma calculateTilt_fields (b : Barge.t) :
  Barge.floats (Barge.calculateTilt b) = Barge.floats b /\
  Barge.items (Barge.calculateTilt b) = Barge.items b /\
  Barge.nextFloatId (Barge.calculateTilt b) = Barge.nextFloatId b /\
  Barge.centerFlotation (Barge.calculateTilt b) = Barge.centerFlotation b.
Proof.
  unfold Barge.calculateTilt; destruct (Barge.items b) eqn:E; simpl; auto.
Qed.

Lemma tilted_fields (b : Barge.t) :
  Barge.floats (tilted b) = Barge.floats b /\
  Barge.items (tilted b) = Barge.items b /\
  Barge.nextFloatId (tilted b) = Barge.nextFloatId b /\
  Barge.centerFlotation (tilted b)
  = Barge.centerFlotation (Barge.calculateCenterFlotation b).
Proof.
  unfold tilted.
  destruct (calculateTilt_fields (Barge.calculateCenterFlotation b)) as (-> & -> & -> & ->).
  destruct (calculateCenterFlotation_fields b) as (-> & -> & -> & _); auto.
Qed.

Lemma update_unfold (b b' : Barge.t) :
  Barge.update b = Some b' ->
  exists fs its,
    forEach (Barge.tiltFloat (tilted b)) (Barge.floats b) = Some fs /\
    forEach (Barge.placeItem (Barge.set_floats (tilted b) fs)) (Barge.items b) = Some its /\
    b' = Barge.mk fs its (Barge.nextFloatId b) (Barge.centerFlotation (tilted b))
                  (Barge.tiltX (tilted b)) (Barge.tiltZ (tilted b)).
Proof.
  unfold Barge.update, Barge.applyTiltToFloats, Barge.updateItemPositions.
  fold (tilted b).
  destruct (tilted_fields b) as (Hf & Hi & Hn & _).
  rewrite Hf.
  destruct (forEach _ (Barge.floats b)) as [fs|] eqn:Hfs; simpl; [|discriminate].
  rewrite Hi.
  destruct (forEach _ (Barge.items b)) as [its|] eqn:Hits; simpl; [|discriminate].
  intros [= <-]; exists fs, its.
  unfold Barge.set_items, Barge.set_floats; simpl; rewrite Hn; auto.
Qed.

Lemma update_fold (b : Barge.t) (fs : list Float.t) (its : list Item.t) :
  forEach (Barge.tiltFloat (tilted b)) (Barge.floats b) = Some fs ->
  forEach (Barge.placeItem (Barge.set_floats (tilted b) fs)) (Barge.items b) = Some its ->
  Barge.update b
  = Some (Barge.mk fs its (Barge.nextFloatId b) (Barge.centerFlotation (tilted b))
                   (Barge.tiltX (tilted b)) (Barge.tiltZ (tilted b))).
Proof.
  intros H1 H2.
  unfold Barge.update, Barge.applyTiltToFloats, Barge.updateItemPositions.
  fold (tilted b).
  destruct (tilted_fields b) as (Hf & Hi & Hn & _).
  rewrite Hf, H1; simpl; rewrite Hi, H2; simpl.
  unfold Barge.set_items, Barge.set_floats; simpl; now rewrite Hn.
Qed.

(** What a pontoon keeps through [applyTiltToFloats]. *)
Lemma tiltFloat_keeps (b : Barge.t) (f f' : Float.t) :
  Barge.tiltFloat b f = Some f' ->
  Float.id f' = Float.id f /\ Float.width f' = Float.width f /\
  Float.height f' = Float.height f /\ Float.depth f' = Float.depth f /\
  Float.weight f' = Float.weight f /\
  Float.waterDensity f' = Float.waterDensity f /\
  Float.restPosition f' = Float.restPosition f /\
  vy (Float.rotation f') = vy (Float.rotation f).
Proof.
  unfold Barge.tiltFloat; destruct (Float.restPosition f) eqn:E; [|discriminate].
  intros [= <-]; simpl; repeat split; auto.
Qed.

Lemma tiltFloat_total (b : Barge.t) (f : Float.t) :
  hasRest f -> exists f', Barge.tiltFloat b f = Some f'.
Proof.
  intros [rest H]; unfold Barge.tiltFloat; rewrite H; eauto.
Qed.

(** What an item keeps through [updateItemPositions]: everything but its
    height above the deck and its rotation about x and z. *)
Lemma placeItem_keeps (b : Barge.t) (i i' : Item.t) :
  Barge.placeItem b i = Some i' ->
  Item.width i' = Item.width i /\ Item.height i' = Item.height i /\
  Item.depth i' = Item.depth i /\
  vx (Item.position i') = vx (Item.position i) /\
  vz (Item.position i') = vz (Item.position i) /\
  vy (Item.rotation i') = vy (Item.rotation i).
Proof.
  unfold Barge.placeItem.
  destruct (Barge.floats b) as [|f fs]; [discriminate|].
  destruct (Float.restPosition f); [|discriminate].
  intros [= <-]; simpl; repeat split; auto.
Qed.

Lemma placeItem_total (b : Barge.t) (i : Item.t) :
  Barge.floats b <> [] -> Forall hasRest (Barge.floats b) ->
  exists i', Barge.placeItem b i = Some i'.
Proof.
  intros Hne Hrest; unfold Barge.placeItem.
  destruct (Barge.floats b) as [|f fs]; [congruence|].
  inversion Hrest as [|? ? [rest Hf] _]; subst.
  rewrite Hf; eauto.
Qed.

Lemma Forall2_keeps_Forall {A : Type} (R : A -> A -> Prop) (P : A -> Prop)
  (xs ys : list A) :
  (forall x y, R x y -> P x -> P y) ->
  Forall2 R xs ys -> Forall P xs -> Forall P ys.
Proof.
  intros HR H; induction H; intros HP; inversion HP; subst; constructor; eauto.
Qed.

Lemma tiltFloat_hasRest (b : Barge.t) (f f' : Float.t) :
  Barge.tiltFloat b f = Some f' -> hasRest f -> hasRest f'.
Proof.
  intros H [rest Hr]; exists rest.
  apply tiltFloat_keeps in H; destruct H as (_ & _ & _ & _ & _ & _ & -> & _); auto.
Qed.

(** [update] cannot raise on a barge with a pontoon whose pontoons all
    have a rest position. *)
Lemma update_total (b : Barge.t) :
  Barge.floats b <> [] -> Forall hasRest (Barge.floats b) ->
  exists b', Barge.update b = Some b'.
Proof.
  intros Hne Hrest.
  destruct (forEach_total (Barge.tiltFloat (tilted b)) (Barge.floats b)) as [fs Hfs].
  { eapply Forall_impl; [|exact Hrest]; intros f; apply tiltFloat_total. }
  destruct (forEach_total (Barge.placeItem (Barge.set_floats (tilted b) fs))
              (Barge.items b)) as [its Hits].
  { apply Forall_forall; intros i _; apply placeItem_total; simpl.
    - pose proof (forEach_length _ _ _ Hfs) as Hlen; intros ->.
      destruct (Barge.floats b); [congruence | simpl in Hlen; discriminate].
    - eapply Forall2_keeps_Forall; [|apply forEach_Forall2, Hfs|exact Hrest].
      intros x y Hxy Hx; simpl in Hxy; eapply tiltFloat_hasRest; eassumption. }
  eexists; apply update_fold; eassumption.
Qed.

(** ** Evaluating the model on a given barge *)

Ltac evaluate :=
  cbv -[Rplus Rmult Rminus Ropp Rdiv Rinv IZR cos sin Rmax Rmin Rle_dec Rlt_dec
        Rlt Rle Rgt Rge PI].

Lemma new_constructed : Barge.new = Some constructed.
Proof. reflexivity. Qed.

Lemma constructed_eq :
  constructed
  = Barge.mk [defaultFloat] [itemAt 0 0] 2 (mkVector3 0 0 0) 0 0.
Proof.
  unfold constructed, defaultFloat, itemAt, defaultRestY; evaluate.
  repeat f_equal; lra.
Qed.

Lemma constructed_floats : Barge.floats constructed = [defaultFloat].
Proof. rewrite constructed_eq; reflexivity. Qed.

Lemma constructed_items : Barge.items constructed = [itemAt 0 0].
Proof. rewrite constructed_eq; reflexivity. Qed.

Lemma constructed_hasRest : Forall hasRest (Barge.floats constructed).
Proof.
  rewrite constructed_eq; repeat constructor; eexists; reflexivity.
Qed.

(** The center of two pontoons is the same in either order, and the
    empty barge keeps its center. *)
Lemma calculateCenterFlotation_spec_witness :
  Barge.centerFlotation
    (Barge.calculateCenterFlotation
       (Barge.set_floats twoFloats (rev (Barge.floats twoFloats))))
  = Barge.centerFlotation (Barge.calculateCenterFlotation twoFloats)
  /\ vx (Barge.centerFlotation (Barge.calculateCenterFlotation twoFloats)) = 10
  /\ Barge.calculateCenterFlotation Barge.empty = Barge.empty.
Proof.
  destruct (calculateCenterFlotation_spec twoFloats (rev (Barge.floats twoFloats)))
    as (Hsum & Hperm & _).
  destruct (calculateCenterFlotation_spec Barge.empty []) as (_ & _ & Hempty).
  split; [|split].
  - apply Hperm, Permutation_rev.
  - rewrite Hsum by (evaluate; discriminate).
    evaluate; lra.
  - apply Hempty; reflexivity.
Defined.

(** ** Tilt *)

Lemma calculateTilt_cons (b : Barge.t) (item0 : Item.t) (others : list Item.t) :
  Barge.items b = item0 :: others ->
  Barge.calculateTilt b
  = Barge.set_tilt b
      (- ((vz (Item.position item0) - vz (Barge.centerFlotation b)) / 5) * 0.05)
      (((vx (Item.position item0) - vx (Barge.centerFlotation b)) / 10) * 0.05).
Proof.
  unfold Barge.calculateTilt; intros ->; reflexivity.
Qed.

(** The center of a single pontoon with a footprint is its own position. *)
Lemma centroid_single (f : Float.t) :
  0 < footprintArea f ->
  Barge.centroid [f] = mkVector3 (vx (Float.position f)) 0 (vz (Float.position f)).
Proof.
  intros H; rewrite centroid_sums; simpl; f_equal; field; lra.
Qed.

Lemma update_tilt (b b' : Barge.t) :
  Barge.update b = Some b' ->
  Barge.tiltX b' = Barge.tiltX (tilted b) /\
  Barge.tiltZ b' = Barge.tiltZ (tilted b) /\
  Barge.centerFlotation b' = Barge.centerFlotation (Barge.calculateCenterFlotation b).
Proof.
  intros H; apply update_unfold in H; destruct H as (fs & its & _ & _ & ->); simpl.
  destruct (tilted_fields b) as (_ & _ & _ & ->); auto.
Qed.

(** C2.  With item 0 in place, [calculateTilt] sets
    tiltAboutZAxis = (offsetX / 10) * 0.05 and
    tiltAboutXAxis = -(offsetZ / 5) * 0.05, where the offsets are those of
    item 0 from the center of flotation, and changes nothing else; the
    other items can be replaced by any others without changing the
    angles; and on a single pontoon with a footprint, with item 0 at the
    pontoon's horizontal position, the angles that [update] computes are
    both 0. *)
Theorem calculateTilt_spec (b : Barge.t) (item0 : Item.t) (others : list Item.t) :
  Barge.items b = item0 :: others ->
  let offsetX := vx (Item.position item0) - vx (Barge.centerFlotation b) in
  let offsetZ := vz (Item.position item0) - vz (Barge.centerFlotation b) in
  Barge.calculateTilt b
    = Barge.set_tilt b (- (offsetZ / 5) * 0.05) ((offsetX / 10) * 0.05)
  /\ (forall others' : list Item.t,
        let b2 := Barge.calculateTilt (Barge.set_items b (item0 :: others')) in
        Barge.tiltX b2 = Barge.tiltX (Barge.calculateTilt b) /\
        Barge.tiltZ b2 = Barge.tiltZ (Barge.calculateTilt b))
  /\ (forall (f : Float.t) (b' : Barge.t),
        Barge.floats b = [f] -> 0 < footprintArea f ->
        vx (Item.position item0) = vx (Float.position f) ->
        vz (Item.position item0) = vz (Float.position f) ->
        Barge.update b = Some b' ->
        Barge.tiltX b' = 0 /\ Barge.tiltZ b' = 0).
Proof.
  intros Hitems offsetX offsetZ; split; [|split].
  - now apply calculateTilt_cons with (others := others).
  - intros others' b2; subst b2.
    rewrite (calculateTilt_cons b item0 others Hitems).
    rewrite (calculateTilt_cons (Barge.set_items b (item0 :: others')) item0 others')
      by reflexivity.
    simpl; auto.
  - intros f b' Hf Harea Hx Hz Hup.
    apply update_tilt in Hup; destruct Hup as (-> & -> & _).
    unfold tilted.
    assert (Hc : Barge.calculateCenterFlotation b
                 = Barge.set_centerFlotation b
                     (mkVector3 (vx (Float.position f)) 0 (vz (Float.position f)))).
    { rewrite calculateCenterFlotation_nonempty by (rewrite Hf; discriminate).
      now rewrite Hf, centroid_single. }
    rewrite Hc.
    rewrite (calculateTilt_cons _ item0 others) by exact Hitems.
    simpl; rewrite Hx, Hz; split; lra.
Qed.

(** On the constructed barge the item sits on the center of the only
    pontoon, and the angles are 0. *)
Lemma calculateTilt_spec_witness :
  exists b' : Barge.t,
    Barge.update constructed = Some b' /\ Barge.tiltX b' = 0 /\ Barge.tiltZ b' = 0.
Proof.
  destruct (update_total constructed) as [b' Hb'].
  { rewrite constructed_eq; discriminate. }
  { exact constructed_hasRest. }
  exists b'; split; [exact Hb'|].
  destruct (calculateTilt_spec constructed (itemAt 0 0) []) as (_ & _ & Hzero).
  { rewrite constructed_eq; reflexivity. }
  apply (Hzero defaultFloat).
  - rewrite constructed_eq; reflexivity.
  - unfold footprintArea; simpl; lra.
  - reflexivity.
  - reflexivity.
  - exact Hb'.
Defined.

(** ** Rotation of the pontoons *)

Lemma tiltFloat_rotation (b : Barge.t) (f f' : Float.t) (rest : Vector3) :
  Float.restPosition f = Some rest ->
  Barge.tiltFloat b f = Some f' ->
  Float.position f'
  = vadd (Barge.centerFlotation b)
         (rotateAboutX (- Barge.tiltX b)
            (rotateAboutZ (- Barge.tiltZ b) (vsub rest (Barge.centerFlotation b))))
  /\ vx (Float.rotation f') = - Barge.tiltX b
  /\ vz (Float.rotation f') = - Barge.tiltZ b.
Proof.
  unfold Barge.tiltFloat; intros ->; intros [= <-]; simpl.
  repeat split.
Qed.

Lemma rotate_zero (p : Vector3) :
  rotateAboutX (- 0) (rotateAboutZ (- 0) p) = p.
Proof.
  destruct p as [x y z]; unfold rotateAboutX, rotateAboutZ; simpl.
  rewrite Ropp_0, cos_0, sin_0; f_equal; lra.
Qed.

Lemma vadd_vsub (p c : Vector3) : vadd c (vsub p c) = p.
Proof.
  destruct p, c; unfold vadd, vsub; simpl; f_equal; lra.
Qed.

(** C3.  On a barge whose pontoons have a rest position,
    [applyTiltToFloats] succeeds; it gives each pontoon, in order, the
    position center + Rx(-tiltX) (Rz(-tiltZ) (rest - center)), the
    rotation about Z in the X/Y plane being applied first and the rotation
    about X in the Y/Z plane second; it sets the pontoon's rotation about
    x to -tiltX and about z to -tiltZ; with tiltX = tiltZ = 0 the position
    so obtained is the rest position itself, so that a pontoon that was at
    its rest position does not move; items, center and angles are
    untouched. *)
Theorem applyTiltToFloats_spec (b : Barge.t) :
  Forall hasRest (Barge.floats b) ->
  exists b' : Barge.t,
    Barge.applyTiltToFloats b = Some b'
    /\ Forall2
         (fun f f' =>
            exists rest : Vector3,
              Float.restPosition f = Some rest
              /\ Float.position f'
                 = vadd (Barge.centerFlotation b)
                     (rotateAboutX (- Barge.tiltX b)
                        (rotateAboutZ (- Barge.tiltZ b)
                           (vsub rest (Barge.centerFlotation b))))
              /\ vx (Float.rotation f') = - Barge.tiltX b
              /\ vz (Float.rotation f') = - Barge.tiltZ b
              /\ (Barge.tiltX b = 0 -> Barge.tiltZ b = 0 ->
                  Float.position f' = rest
                  /\ (Float.position f = rest ->
                      Float.position f' = Float.position f)))
         (Barge.floats b) (Barge.floats b')
    /\ b' = Barge.set_floats b (Barge.floats b').
Proof.
  intros Hrest.
  destruct (forEach_total (Barge.tiltFloat b) (Barge.floats b)) as [fs Hfs].
  { eapply Forall_impl; [|exact Hrest]; intros f; apply tiltFloat_total. }
  exists (Barge.set_floats b fs); split; [|split].
  - unfold Barge.applyTiltToFloats; now rewrite Hfs.
  - simpl. apply forEach_Forall2 in Hfs.
    induction Hfs as [|f f' l l' Hf _ IH]; constructor.
    + inversion Hrest as [|? ? [rest Hr] _]; subst.
      exists rest; split; [exact Hr|].
      destruct (tiltFloat_rotation b f f' rest Hr Hf) as (Hp & Hx & Hz).
      split; [exact Hp|]; split; [exact Hx|]; split; [exact Hz|].
      intros Hx0 Hz0.
      assert (Hid : Float.position f' = rest)
        by (rewrite Hp, Hx0, Hz0, rotate_zero; apply vadd_vsub).
      split; [exact Hid | congruence].
    + apply IH; now inversion Hrest.
  - reflexivity.
Qed.

(** The constructed barge has no tilt, and its pontoon goes to its rest
    position. *)
Lemma applyTiltToFloats_spec_witness :
  exists b' : Barge.t,
    Barge.applyTiltToFloats constructed = Some b'
    /\ map Float.position (Barge.floats b')
       = [mkVector3 0 defaultRestY 0].
Proof.
  destruct (applyTiltToFloats_spec constructed constructed_hasRest)
    as (b' & Hb' & Hall & _).
  exists b'; split; [exact Hb'|].
  rewrite constructed_eq in Hall; simpl in Hall.
  inversion Hall as [|f f' l l' (rest & Hr & _ & _ & _ & Hzero) Hnil]; subst.
  inversion Hnil; subst.
  injection Hr as <-.
  destruct (Hzero eq_refl eq_refl) as (Hrest & _).
  simpl; rewrite Hrest; reflexivity.
Defined.

(** ** The clamp of [moveItem] *)

Lemma clamp_within (half v : R) :
  0 <= half -> withinDeck half (Rmax (- half) (Rmin half v)).
Proof.
  intros H; unfold withinDeck, Rmax, Rmin.
  destruct (Rle_dec half v); destruct (Rle_dec _ _); lra.
Qed.

Lemma clamp_beyond (half v : R) :
  0 <= half -> half <= v -> Rmax (- half) (Rmin half v) = half.
Proof.
  intros H Hv; unfold Rmax, Rmin.
  destruct (Rle_dec half v); destruct (Rle_dec _ _); lra.
Qed.

Lemma clamp_below (half v : R) :
  0 <= half -> v <= - half -> Rmax (- half) (Rmin half v) = - half.
Proof.
  intros H Hv; unfold Rmax, Rmin.
  destruct (Rle_dec half v); destruct (Rle_dec _ _); lra.
Qed.

Lemma clamp_inside (half v : R) :
  withinDeck half v -> Rmax (- half) (Rmin half v) = v.
Proof.
  unfold withinDeck; intros Hv; unfold Rmax, Rmin.
  destruct (Rle_dec half v); destruct (Rle_dec _ _); lra.
Qed.

(** When the half-extent is negative the clamp returns its lower bound,
    which is above its upper bound, whatever the request. *)
Lemma clamp_narrow (half v : R) :
  half < 0 -> Rmax (- half) (Rmin half v) = - half.
Proof.
  intros H; unfold Rmax, Rmin.
  destruct (Rle_dec half v); destruct (Rle_dec _ _); lra.
Qed.

(** ** Repeating [update] *)

Lemma tilted_tilt (b : Barge.t) :
  Barge.tiltX (tilted b)
  = match Barge.items b with
    | [] => Barge.tiltX b
    | item :: _ =>
        - ((vz (Item.position item) - vz (Barge.centerFlotation (tilted b))) / 5) * 0.05
    end
  /\ Barge.tiltZ (tilted b)
     = match Barge.items b with
       | [] => Barge.tiltZ b
       | item :: _ =>
           ((vx (Item.position item) - vx (Barge.centerFlotation (tilted b))) / 10) * 0.05
       end.
Proof.
  destruct (tilted_fields b) as (_ & _ & _ & ->).
  unfold tilted, Barge.calculateTilt.
  destruct (calculateCenterFlotation_fields b) as (_ & -> & _ & Hx & Hz).
  destruct (Barge.items b) as [|item its]; simpl; auto.
Qed.

(** A pontoon that [applyTiltToFloats] has placed is placed again where it
    is by any barge with the same center and angles. *)
Lemma tiltFloat_again (b b' : Barge.t) (f f1 : Float.t) :
  Barge.tiltFloat b f = Some f1 ->
  Barge.centerFlotation b' = Barge.centerFlotation b ->
  Barge.tiltX b' = Barge.tiltX b ->
  Barge.tiltZ b' = Barge.tiltZ b ->
  Barge.tiltFloat b' f1 = Some f1.
Proof.
  unfold Barge.tiltFloat.
  destruct (Float.restPosition f) as [rest|] eqn:E; [|discriminate].
  intros [= <-] Hc Hx Hz; simpl.
  rewrite E, Hc, Hx, Hz; reflexivity.
Qed.

Lemma placeItem_again (b b' : Barge.t) (i i1 : Item.t) :
  Barge.placeItem b i = Some i1 ->
  Barge.floats b' = Barge.floats b ->
  Barge.centerFlotation b' = Barge.centerFlotation b ->
  Barge.tiltX b' = Barge.tiltX b ->
  Barge.tiltZ b' = Barge.tiltZ b ->
  Barge.placeItem b' i1 = Some i1.
Proof.
  unfold Barge.placeItem; intros H Hf Hc Hx Hz; rewrite Hf, Hc, Hx, Hz.
  destruct (Barge.floats b) as [|f fs]; [discriminate|].
  destruct (Float.restPosition f) as [rest|]; [|discriminate].
  injection H as <-; reflexivity.
Qed.

Lemma Forall2_fixed {A : Type} (P Q : A -> A -> Prop) (xs ys : list A) :
  (forall x y, P x y -> Q y y) -> Forall2 P xs ys -> Forall (fun y => Q y y) ys.
Proof.
  intros HPQ H; induction H; constructor; eauto.
Qed.


(** One [update] of a barge with a single pontoon. *)
Lemma update_single (b b' : Barge.t) (f : Float.t) (i : Item.t)
  (its : list Item.t) (rest : Vector3) :
  Barge.floats b = [f] -> Barge.items b = i :: its ->
  Float.restPosition f = Some rest -> 0 < footprintArea f ->
  Barge.update b = Some b' ->
  let c := mkVector3 (vx (Float.position f)) 0 (vz (Float.position f)) in
  let tx := - ((vz (Item.position i) - vz (Float.position f)) / 5) * 0.05 in
  let tz := ((vx (Item.position i) - vx (Float.position f)) / 10) * 0.05 in
  Barge.centerFlotation b' = c /\ Barge.tiltX b' = tx /\ Barge.tiltZ b' = tz
  /\ (exists f' : Float.t,
        Barge.floats b' = [f']
        /\ Float.position f'
           = vadd c (rotateAboutX (- tx) (rotateAboutZ (- tz) (vsub rest c)))
        /\ Float.restPosition f' = Some rest
        /\ footprintArea f' = footprintArea f)
  /\ (exists (i' : Item.t) (its' : list Item.t),
        Barge.items b' = i' :: its'
        /\ vx (Item.position i') = vx (Item.position i)
        /\ vz (Item.position i') = vz (Item.position i)).
Proof.
  intros Hf Hi Hrest Harea Hup c tx tz.
  assert (Hc : Barge.centerFlotation (tilted b) = c).
  { destruct (tilted_fields b) as (_ & _ & _ & ->).
    rewrite calculateCenterFlotation_nonempty by (rewrite Hf; discriminate).
    rewrite Hf, centroid_single by assumption; reflexivity. }
  destruct (tilted_tilt b) as (Hx & Hz).
  rewrite Hi, Hc in Hx, Hz; simpl in Hx, Hz.
  destruct (update_unfold _ _ Hup) as (fs & its1 & Hfs & Hits & ->); simpl.
  rewrite Hc, Hx, Hz; repeat split.
  - rewrite Hf in Hfs; simpl in Hfs.
    destruct (Barge.tiltFloat (tilted b) f) as [f'|] eqn:Hf'; simpl in Hfs; [|discriminate].
    injection Hfs as <-.
    exists f'; split; [reflexivity|].
    destruct (tiltFloat_rotation _ _ _ _ Hrest Hf') as (Hp & _).
    rewrite Hc, Hx, Hz in Hp.
    apply tiltFloat_keeps in Hf'.
    destruct Hf' as (_ & Hw & _ & Hd & _ & _ & Hr & _).
    unfold footprintArea; rewrite Hw, Hd, Hr; auto.
  - rewrite Hi in Hits; simpl in Hits.
    destruct (Barge.placeItem _ i) as [i'|] eqn:Hi'; simpl in Hits; [|discriminate].
    destruct (forEach _ its) as [its'|]; simpl in Hits; [|discriminate].
    injection Hits as <-.
    exists i', its'; split; [reflexivity|].
    apply placeItem_keeps in Hi'; tauto.
Qed.

Lemma defaultRestY_positive : 0 < defaultRestY.
Proof. unfold defaultRestY; lra. Qed.

Lemma update_constructed :
  exists b1 : Barge.t,
    Barge.update constructed = Some b1 /\
    Barge.centerFlotation b1 = mkVector3 0 0 0 /\
    Barge.tiltX b1 = 0 /\ Barge.tiltZ b1 = 0 /\
    (exists f1,
       Barge.floats b1 = [f1] /\ Float.position f1 = mkVector3 0 defaultRestY 0
       /\ Float.restPosition f1 = Some (mkVector3 0 defaultRestY 0)
       /\ footprintArea f1 = 200) /\
    (exists i1 its1,
       Barge.items b1 = i1 :: its1 /\
       vx (Item.position i1) = 0 /\ vz (Item.position i1) = 0).
Proof.
  destruct (update_total constructed) as [b1 Hb1].
  { rewrite constructed_eq; discriminate. }
  { exact constructed_hasRest. }
  exists b1; split; [exact Hb1|].
  destruct (update_single constructed b1 defaultFloat (itemAt 0 0) []
              (mkVector3 0 defaultRestY 0) constructed_floats constructed_items
              eq_refl ltac:(unfold footprintArea; simpl; lra) Hb1)
    as (Hc & Hx & Hz & (f1 & Hf1 & Hp & Hr & Ha) & Hi).
  simpl in Hc, Hx, Hz, Hp, Hi.
  assert (Ex : - ((0 - 0) / 5) * 0.05 = 0) by lra.
  assert (Ez : (0 - 0) / 10 * 0.05 = 0) by lra.
  rewrite Ex in *; rewrite Ez in *.
  repeat split; auto.
  exists f1; repeat split; auto.
  - rewrite Hp, rotate_zero; unfold vadd, vsub; simpl; f_equal; lra.
  - rewrite Ha; unfold footprintArea; simpl; lra.
Qed.



(** ** Adding pontoons *)

Lemma last_app_singleton {A : Type} (pre : list A) (x d : A) :
  last (pre ++ [x]) d = x.
Proof.
  induction pre as [|y pre IH]; simpl; [reflexivity|].
  destruct (pre ++ [x]) eqn:E; [destruct pre; discriminate | exact IH].
Qed.

(** The float that [addFloat] creates, when the list ends with [prev]. *)
Lemma addFloat_after (b : Barge.t) (pre : list Float.t) (prev : Float.t) :
  Barge.floats b = pre ++ [prev] ->
  snd (Barge.addFloat b)
  = Float.set_restPosition
      (Float.setPosition (Float.new (Barge.nextFloatId b))
         (vx (Float.position prev) + Float.width prev / 2 + 20 / 2)
         (- Float.calculateDraft (Float.new (Barge.nextFloatId b)) + 7 / 2)
         (vz (Float.position prev)))
      (mkVector3
         (vx (Float.position prev) + Float.width prev / 2 + 20 / 2)
         (- Float.calculateDraft (Float.new (Barge.nextFloatId b)) + 7 / 2)
         (vz (Float.position prev))).
Proof.
  intros H; unfold Barge.addFloat; simpl; rewrite H.
  destruct (pre ++ [prev]) as [|f0 rest] eqn:E; [destruct pre; discriminate|].
  assert (Hl : last rest f0 = prev).
  { destruct pre as [|p pre]; simpl in E; injection E as <- <-; [reflexivity|].
    apply last_app_singleton. }
  simpl; rewrite Hl; reflexivity.
Qed.

Lemma addFloat_first (b : Barge.t) :
  Barge.floats b = [] ->
  snd (Barge.addFloat b)
  = Float.set_restPosition
      (Float.setPosition (Float.new (Barge.nextFloatId b)) 0
         (- Float.calculateDraft (Float.new (Barge.nextFloatId b)) + 7 / 2) 0)
      (mkVector3 0
         (- Float.calculateDraft (Float.new (Barge.nextFloatId b)) + 7 / 2) 0).
Proof.
  intros H; unfold Barge.addFloat; simpl; rewrite H; reflexivity.
Qed.

(** The barge that [addFloat] leaves: the float appended, the next
    identifier, and the center recomputed. *)
Lemma addFloat_barge (b : Barge.t) :
  let float := snd (Barge.addFloat b) in
  fst (Barge.addFloat b)
  = Barge.mk (Barge.floats b ++ [float]) (Barge.items b) (S (Barge.nextFloatId b))
             (Barge.centroid (Barge.floats b ++ [float]))
             (Barge.tiltX b) (Barge.tiltZ b).
Proof.
  unfold Barge.addFloat; simpl.
  destruct (Barge.floats b) as [|f0 rest]; simpl; [reflexivity|].
  unfold Barge.calculateCenterFlotation; simpl.
  destruct (rest ++ _) eqn:E; [destruct rest; discriminate|reflexivity].
Qed.

Lemma tiled_app (suf : list Float.t) (prev new : Float.t) (pre : list Float.t) :
  suf = pre ++ [prev] -> tiled suf ->
  vx (Float.position new) - Float.width new / 2
    = vx (Float.position prev) + Float.width prev / 2 ->
  vz (Float.position new) = vz (Float.position prev) ->
  tiled (suf ++ [new]).
Proof.
  intros -> Ht Hx Hz; induction pre as [|p pre IH]; simpl in *.
  - repeat split; auto.
  - destruct Ht as (Hhead & Ht); split; [|now apply IH].
    destruct pre; simpl in *; exact Hhead.
Qed.

(** One more pontoon keeps a tiled tail of the list tiled. *)
Lemma addFloat_tiled (b : Barge.t) (pre suf : list Float.t) :
  Barge.floats b = pre ++ suf -> suf <> [] -> tiled suf ->
  tiled (suf ++ [snd (Barge.addFloat b)]).
Proof.
  intros Hfs Hne Ht.
  destruct (exists_last Hne) as (suf' & prev & ->).
  rewrite (addFloat_after b (pre ++ suf') prev) by (rewrite Hfs, app_assoc; reflexivity).
  eapply tiled_app; [reflexivity|exact Ht| |]; simpl; [lra|reflexivity].
Qed.

Lemma addFloats_tiled (n : nat) :
  forall (b : Barge.t) (pre suf : list Float.t),
    Barge.floats b = pre ++ suf -> tiled suf ->
    exists news : list Float.t,
      Barge.floats (addFloats n b) = pre ++ suf ++ news
      /\ length news = n
      /\ tiled (suf ++ news)
      /\ map Float.id news = seq (Barge.nextFloatId b) n.
Proof.
  induction n as [|n IH]; intros b pre suf Hfs Ht; simpl.
  - exists []; rewrite app_nil_r; auto.
  - set (float := snd (Barge.addFloat b)).
    destruct (IH (fst (Barge.addFloat b)) pre (suf ++ [float]))
      as (news & Hfl & Hlen & Htl & Hids).
    + rewrite addFloat_barge; simpl; fold float; rewrite Hfs, app_assoc; reflexivity.
    + destruct suf as [|s suf].
      * simpl; auto.
      * eapply addFloat_tiled; [exact Hfs|discriminate|exact Ht].
    + exists (float :: news); repeat split.
      * rewrite Hfl, <- !app_assoc; reflexivity.
      * simpl; congruence.
      * rewrite <- app_assoc in Htl; exact Htl.
      * simpl; f_equal.
        -- unfold float, Barge.addFloat; simpl.
           destruct (Barge.floats b); reflexivity.
        -- rewrite Hids, addFloat_barge; reflexivity.
Qed.

Lemma addFloat_id (b : Barge.t) :
  Float.id (snd (Barge.addFloat b)) = Barge.nextFloatId b.
Proof.
  unfold Barge.addFloat; simpl; destruct (Barge.floats b); reflexivity.
Qed.

Lemma addFloat_placement (b : Barge.t) :
  let float := snd (Barge.addFloat b) in
  vy (Float.position float) = - Float.calculateDraft float + Float.height float / 2
  /\ Float.restPosition float = Some (Float.position float)
  /\ Float.width float = 20 /\ Float.height float = 7 /\ Float.depth float = 10
  /\ Float.weight float = 20000 /\ Float.waterDensity float = 62.4.
Proof.
  unfold Barge.addFloat; simpl; destruct (Barge.floats b); simpl; repeat split.
Qed.



(** The constructed barge with a second pontoon: the pontoon stands at
    x = 20 and the center of flotation at x = 10. *)
Lemma addFloat_constructed : fst (Barge.addFloat constructed) = twoPontoons.
Proof.
  rewrite constructed_eq.
  unfold twoPontoons, secondFloat, defaultFloat, itemAt, defaultRestY; evaluate.
  repeat f_equal; lra.
Qed.

Lemma cos_below_1 (a : R) : 0 < a -> a < PI -> cos a < 1.
Proof.
  intros H0 Hpi.
  pose proof (sin_gt_0 a H0 Hpi) as Hs.
  pose proof (sin2_cos2 a) as H; unfold Rsqr in H.
  pose proof (COS_bound a) as (_ & Hle).
  destruct (Rle_lt_or_eq_dec _ _ Hle) as [Hlt|Heq]; [exact Hlt|].
  rewrite Heq in H; nra.
Qed.

(** One frame on the barge with two pontoons: the item at x = 0 is 10
    away from the center, the barge tilts by -0.05 about z, and both
    pontoons are rotated about the center. *)
Lemma update_twoPontoons :
  exists (b2 : Barge.t) (f1 f2 : Float.t),
    Barge.update twoPontoons = Some b2
    /\ Barge.floats b2 = [f1; f2]
    /\ vx (Float.position f1) = 10 + (- 10 * cos 0.05 - defaultRestY * sin 0.05)
    /\ vx (Float.position f2) = 10 + (10 * cos 0.05 - defaultRestY * sin 0.05)
    /\ Float.width f1 = 20 /\ Float.width f2 = 20
    /\ Float.restPosition f2 = Some (mkVector3 20 defaultRestY 0).
Proof.
  destruct (update_total twoPontoons) as [b2 Hb2].
  { discriminate. }
  { repeat constructor; eexists; reflexivity. }
  destruct (update_unfold _ _ Hb2) as (fs & its & Hfs & _ & E).
  assert (Hc : Barge.centerFlotation (tilted twoPontoons) = mkVector3 10 0 0).
  { destruct (tilted_fields twoPontoons) as (_ & _ & _ & ->).
    rewrite calculateCenterFlotation_nonempty by discriminate.
    cbn [Barge.set_centerFlotation Barge.centerFlotation].
    rewrite centroid_sums; unfold footprintArea; simpl; f_equal; lra. }
  destruct (tilted_tilt twoPontoons) as (Hx & Hz).
  rewrite Hc in Hx, Hz.
  change (Barge.items twoPontoons) with [itemAt 0 0] in Hx, Hz.
  cbn [itemAt Item.position vx vz] in Hx, Hz.
  assert (Hx0 : - Barge.tiltX (tilted twoPontoons) = 0) by (rewrite Hx; lra).
  assert (Hz0 : - Barge.tiltZ (tilted twoPontoons) = 0.05) by (rewrite Hz; lra).
  change (Barge.floats twoPontoons) with [defaultFloat; secondFloat] in Hfs.
  cbn [forEach] in Hfs.
  destruct (Barge.tiltFloat (tilted twoPontoons) defaultFloat) as [f1|] eqn:H1;
    cbn [bind] in Hfs; [|discriminate].
  destruct (Barge.tiltFloat (tilted twoPontoons) secondFloat) as [f2|] eqn:H2;
    cbn [bind] in Hfs; [|discriminate].
  injection Hfs as <-.
  destruct (tiltFloat_rotation (tilted twoPontoons) defaultFloat f1
              (mkVector3 0 defaultRestY 0) eq_refl H1) as (Hp1 & _).
  destruct (tiltFloat_rotation (tilted twoPontoons) secondFloat f2
              (mkVector3 20 defaultRestY 0) eq_refl H2) as (Hp2 & _).
  rewrite Hc, Hx0, Hz0 in Hp1, Hp2.
  pose proof (tiltFloat_keeps _ _ _ H1) as (_ & Hw1 & _).
  pose proof (tiltFloat_keeps _ _ _ H2) as (_ & Hw2 & _ & _ & _ & _ & Hr2 & _).
  exists b2, f1, f2.
  repeat match goal with |- _ /\ _ => split end; auto.
  - rewrite E; reflexivity.
  - rewrite Hp1; unfold vadd, vsub, rotateAboutX, rotateAboutZ; simpl; lra.
  - rewrite Hp2; unfold vadd, vsub, rotateAboutX, rotateAboutZ; simpl; lra.
Qed.


(** ** Moving an item *)

Lemma nth_error_replace {A : Type} (n : nat) (x : A) (xs : list A) :
  (n < length xs)%nat -> nth_error (Barge.replace n x xs) n = Some x.
Proof.
  revert n; induction xs as [|y xs IH]; intros [|n] H; simpl in *; try lia.
  - reflexivity.
  - apply IH; lia.
Qed.

Lemma replace_length {A : Type} (n : nat) (x : A) (xs : list A) :
  length (Barge.replace n x xs) = length xs.
Proof.
  revert n; induction xs as [|y xs IH]; intros [|n]; simpl; auto.
Qed.

Lemma Forall2_nth_error {A : Type} (P : A -> A -> Prop) (xs ys : list A)
  (n : nat) (x : A) :
  Forall2 P xs ys -> nth_error xs n = Some x ->
  exists y, nth_error ys n = Some y /\ P x y.
Proof.
  intros H; revert n; induction H as [|x0 y0 xs ys Hxy _ IH]; intros [|n] Hn;
    simpl in *; try discriminate.
  - injection Hn as <-; eauto.
  - eauto.
Qed.

(** What [moveItem] does for an index in range on a barge with a
    pontoon: it writes the clamped coordinates, keeps the item's height,
    and runs [update], which leaves x and z as written. *)
Lemma moveItem_writes (b : Barge.t) (itemIndex : nat) (x z : R)
  (mainFloat : Float.t) (others : list Float.t) :
  Barge.floats b = mainFloat :: others ->
  Forall hasRest (Barge.floats b) ->
  (itemIndex < length (Barge.items b))%nat ->
  exists (written b' : Barge.t) (item' : Item.t),
    Barge.writeItem b itemIndex x z = Some written
    /\ Barge.floats written = Barge.floats b
    /\ Barge.update written = Some b'
    /\ Barge.moveItem b itemIndex x z = Some b'
    /\ nth_error (Barge.items b') itemIndex = Some item'
    /\ vx (Item.position item')
       = Rmax (- (Float.width mainFloat / 2 - 1))
              (Rmin (Float.width mainFloat / 2 - 1) x)
    /\ vz (Item.position item')
       = Rmax (- (Float.depth mainFloat / 2 - 1))
              (Rmin (Float.depth mainFloat / 2 - 1) z).
Proof.
  intros Hf Hrest Hlt.
  destruct (nth_error (Barge.items b) itemIndex) as [item|] eqn:Hitem;
    [|apply nth_error_None in Hitem; lia].
  set (moved :=
         Item.set_position item
           (mkVector3
              (Rmax (- (Float.width mainFloat / 2 - 1))
                    (Rmin (Float.width mainFloat / 2 - 1) x))
              (vy (Item.position item))
              (Rmax (- (Float.depth mainFloat / 2 - 1))
                    (Rmin (Float.depth mainFloat / 2 - 1) z)))).
  set (written := Barge.set_items b (Barge.replace itemIndex moved (Barge.items b))).
  assert (Hw : Barge.writeItem b itemIndex x z = Some written).
  { unfold Barge.writeItem; rewrite Hf, Hitem; reflexivity. }
  destruct (update_total written) as [b' Hb'].
  { simpl; rewrite Hf; discriminate. }
  { exact Hrest. }
  destruct (update_unfold _ _ Hb') as (fs & its & _ & Hits & E).
  apply forEach_Forall2 in Hits.
  destruct (Forall2_nth_error _ _ _ itemIndex moved Hits) as (item' & Hn & Hp).
  { simpl; now apply nth_error_replace. }
  apply placeItem_keeps in Hp; destruct Hp as (_ & _ & _ & Hx & Hz & _).
  exists written, b', item'; repeat split; auto.
  - unfold Barge.moveItem.
    destruct (Nat.ltb_spec itemIndex (length (Barge.items b))); [|lia].
    rewrite Hw; exact Hb'.
  - rewrite E; exact Hn.
Qed.

(** C6, as amended.  For an index in range, on a barge whose pontoons
    have a rest position, [moveItem] neither rejects nor raises: it writes
    x = max(-hw, min(hw, x)) and z = max(-hd, min(hd, z)), with
    hw = pontoon0.width / 2 - 1 and hd = pontoon0.depth / 2 - 1, and then
    calls [update], after which the item still has these coordinates.
    When pontoon 0 is at least 2 wide, the x written lies in [-hw, hw]: a
    request beyond hw gives exactly hw, a request below -hw gives exactly
    -hw, and a request inside is kept; the same holds for z when
    pontoon 0 is at least 2 deep. *)
Theorem moveItem_spec (b : Barge.t) (itemIndex : nat) (x z : R)
  (mainFloat : Float.t) (others : list Float.t) :
  Barge.floats b = mainFloat :: others ->
  Forall hasRest (Barge.floats b) ->
  (itemIndex < length (Barge.items b))%nat ->
  let halfWidth := Float.width mainFloat / 2 - 1 in
  let halfDepth := Float.depth mainFloat / 2 - 1 in
  exists (written b' : Barge.t) (item' : Item.t),
    Barge.writeItem b itemIndex x z = Some written
    /\ Barge.update written = Some b'
    /\ Barge.moveItem b itemIndex x z = Some b'
    /\ nth_error (Barge.items b') itemIndex = Some item'
    /\ vx (Item.position item') = Rmax (- halfWidth) (Rmin halfWidth x)
    /\ vz (Item.position item') = Rmax (- halfDepth) (Rmin halfDepth z)
    /\ (2 <= Float.width mainFloat ->
        withinDeck halfWidth (vx (Item.position item'))
        /\ (halfWidth <= x -> vx (Item.position item') = halfWidth)
        /\ (x <= - halfWidth -> vx (Item.position item') = - halfWidth)
        /\ (withinDeck halfWidth x -> vx (Item.position item') = x))
    /\ (2 <= Float.depth mainFloat ->
        withinDeck halfDepth (vz (Item.position item'))
        /\ (halfDepth <= z -> vz (Item.position item') = halfDepth)
        /\ (z <= - halfDepth -> vz (Item.position item') = - halfDepth)
        /\ (withinDeck halfDepth z -> vz (Item.position item') = z)).
Proof.
  intros Hf Hrest Hlt halfWidth halfDepth.
  destruct (moveItem_writes b itemIndex x z mainFloat others Hf Hrest Hlt)
    as (written & b' & item' & Hw & _ & Hu & Hm & Hn & Hx & Hz).
  fold halfWidth in Hx; fold halfDepth in Hz.
  exists written, b', item'; repeat match goal with |- _ /\ _ => split end; auto.
  - intros H2; assert (0 <= halfWidth) by (unfold halfWidth; lra).
    rewrite Hx; repeat split.
    + apply clamp_within; assumption.
    + apply clamp_within; assumption.
    + intros; now apply clamp_beyond.
    + intros; now apply clamp_below.
    + intros; now apply clamp_inside.
  - intros H2; assert (0 <= halfDepth) by (unfold halfDepth; lra).
    rewrite Hz; repeat split.
    + apply clamp_within; assumption.
    + apply clamp_within; assumption.
    + intros; now apply clamp_beyond.
    + intros; now apply clamp_below.
    + intros; now apply clamp_inside.
Qed.

(** On the constructed barge a request for x = 25, z = -7 ends at
    x = 9, z = -4. *)
Lemma moveItem_spec_witness :
  exists (b' : Barge.t) (item' : Item.t),
    Barge.moveItem constructed 0 25 (-7) = Some b'
    /\ nth_error (Barge.items b') 0 = Some item'
    /\ vx (Item.position item') = 9
    /\ vz (Item.position item') = -4.
Proof.
  destruct (moveItem_spec constructed 0 25 (-7) defaultFloat []
              constructed_floats constructed_hasRest)
    as (written & b' & item' & _ & _ & Hm & Hn & _ & _ & Hx & Hz).
  { rewrite constructed_items; simpl; lia. }
  exists b', item'; repeat split; auto.
  - destruct Hx as (_ & -> & _); simpl; lra.
  - destruct Hz as (_ & _ & -> & _); simpl; lra.
Defined.

(** ** Editing the first pontoon *)

Lemma editPositive_width (v : option R) (st : Float.t * bool) :
  attributes (fst (editPositive Float.set_width v st))
  = (Float.id (fst st), accepted v (Float.width (fst st)), Float.height (fst st),
     Float.depth (fst st), Float.weight (fst st), Float.waterDensity (fst st),
     Float.restPosition (fst st)).
Proof.
  destruct v as [r|]; simpl; [destruct (Rlt_dec 0 r)|]; reflexivity.
Qed.

Lemma editPositive_depth (v : option R) (st : Float.t * bool) :
  attributes (fst (editPositive Float.set_depth v st))
  = (Float.id (fst st), Float.width (fst st), Float.height (fst st),
     accepted v (Float.depth (fst st)), Float.weight (fst st),
     Float.waterDensity (fst st), Float.restPosition (fst st)).
Proof.
  destruct v as [r|]; simpl; [destruct (Rlt_dec 0 r)|]; reflexivity.
Qed.

Lemma editPositive_height (v : option R) (st : Float.t * bool) :
  attributes (fst (editPositive Float.set_height v st))
  = (Float.id (fst st), Float.width (fst st), accepted v (Float.height (fst st)),
     Float.depth (fst st), Float.weight (fst st), Float.waterDensity (fst st),
     Float.restPosition (fst st)).
Proof.
  destruct v as [r|]; simpl; [destruct (Rlt_dec 0 r)|]; reflexivity.
Qed.

Lemma editPositive_weight (v : option R) (st : Float.t * bool) :
  attributes (fst (editPositive Float.set_weight v st))
  = (Float.id (fst st), Float.width (fst st), Float.height (fst st),
     Float.depth (fst st), accepted v (Float.weight (fst st)),
     Float.waterDensity (fst st), Float.restPosition (fst st)).
Proof.
  destruct v as [r|]; simpl; [destruct (Rlt_dec 0 r)|]; reflexivity.
Qed.

Lemma editCoordinate_attributes (set : Vector3 -> R -> Vector3) (v : option R)
  (f : Float.t) :
  attributes (editCoordinate set v f) = attributes f.
Proof.
  destruct v; reflexivity.
Qed.

Lemma tiltFloat_attributes (b : Barge.t) (f f' : Float.t) :
  Barge.tiltFloat b f = Some f' -> attributes f' = attributes f.
Proof.
  intros H; apply tiltFloat_keeps in H.
  destruct H as (Hi & Hw & Hh & Hd & Hg & Hr & Hp & _).
  unfold attributes; congruence.
Qed.

Lemma accepted_malformed (v : option R) (old : R) :
  malformed v -> accepted v old = old.
Proof.
  destruct v as [r|]; simpl; [|reflexivity].
  intros H; destruct (Rlt_dec 0 r); [lra|reflexivity].
Qed.

Lemma accepted_positive (v : option R) (old : R) :
  0 < old -> 0 < accepted v old.
Proof.
  destruct v as [r|]; simpl; [|auto].
  destruct (Rlt_dec 0 r); auto.
Qed.

(** What [updateFloatProperties] does to the pontoons: it cannot raise on
    a barge with a pontoon whose pontoons have a rest position; pontoon 0
    takes the accepted values; the other attributes, and the other
    pontoons' attributes, stay. *)
Lemma updateFloatProperties_edits (barge : Barge.t) (input : PanelInput)
  (float : Float.t) (others : list Float.t) :
  Barge.floats barge = float :: others ->
  Forall hasRest (Barge.floats barge) ->
  exists (barge' : Barge.t) (float' : Float.t) (others' : list Float.t),
    updateFloatProperties barge input = Some barge'
    /\ Barge.floats barge' = float' :: others'
    /\ attributes float'
       = (Float.id float,
          accepted (floatLength input) (Float.width float),
          accepted (floatHeight input) (Float.height float),
          accepted (floatWidth input) (Float.depth float),
          accepted (floatWeight input) (Float.weight float),
          Float.waterDensity float, Float.restPosition float)
    /\ Forall2 (fun f f' => attributes f' = attributes f) others others'
    /\ length (Barge.items barge') = length (Barge.items barge)
    /\ Barge.nextFloatId barge' = Barge.nextFloatId barge.
Proof.
  intros Hf Hrest.
  unfold updateFloatProperties; rewrite Hf.
  set (st1 := editPositive Float.set_width (floatLength input) (float, false)).
  set (st2 := editPositive Float.set_depth (floatWidth input) st1).
  set (st3 := editPositive Float.set_height (floatHeight input) st2).
  set (st4 := editPositive Float.set_weight (floatWeight input) st3).
  assert (Hst : attributes (fst st4)
                = (Float.id float,
                   accepted (floatLength input) (Float.width float),
                   accepted (floatHeight input) (Float.height float),
                   accepted (floatWidth input) (Float.depth float),
                   accepted (floatWeight input) (Float.weight float),
                   Float.waterDensity float, Float.restPosition float)).
  { unfold st4; rewrite editPositive_weight.
    pose proof (editPositive_height (floatHeight input) st2) as H3; fold st3 in H3.
    pose proof (editPositive_depth (floatWidth input) st1) as H2; fold st2 in H2.
    pose proof (editPositive_width (floatLength input) (float, false)) as H1;
      fold st1 in H1.
    unfold attributes in H1, H2, H3; simpl in H1.
    injection H1 as E1 E2 E3 E4 E5 E6 E7.
    injection H2 as F1 F2 F3 F4 F5 F6 F7.
    injection H3 as G1 G2 G3 G4 G5 G6 G7.
    congruence. }
  destruct st4 as [float4 recalculateY]; simpl in Hst.
  match goal with
  | |- context [Barge.set_floats barge (?f :: others)] => set (edited := f)
  end.
  assert (He : attributes edited = attributes float4).
  { unfold edited.
    destruct (recalculateY && negb (manualYChange input))%bool;
      [|destruct (manualYChange input)];
      unfold attributes; simpl;
      fold (attributes (editCoordinate set_vz (floatPosZ input)
                          (editCoordinate set_vx (floatPosX input) float4)));
      rewrite ?editCoordinate_attributes; try reflexivity.
    change (attributes
              (editCoordinate set_vy (floatPosY input)
                 (editCoordinate set_vz (floatPosZ input)
                    (editCoordinate set_vx (floatPosX input) float4)))
            = attributes float4).
    now rewrite !editCoordinate_attributes. }
  set (b1 := Barge.calculateCenterFlotation (Barge.set_floats barge (edited :: others))).
  assert (Hfl : Barge.floats b1 = edited :: others).
  { unfold b1; now rewrite (proj1 (calculateCenterFlotation_fields _)). }
  assert (Hit : Barge.items b1 = Barge.items barge).
  { unfold b1; now rewrite (proj1 (proj2 (calculateCenterFlotation_fields _))). }
  assert (Hn : Barge.nextFloatId b1 = Barge.nextFloatId barge).
  { unfold b1.
    now rewrite (proj1 (proj2 (proj2 (calculateCenterFlotation_fields _)))). }
  assert (Hrest1 : Forall hasRest (Barge.floats b1)).
  { rewrite Hfl; rewrite Hf in Hrest; inversion Hrest as [|? ? [rest Hr] Ho]; subst.
    constructor; [|exact Ho].
    exists rest. unfold attributes in He, Hst; congruence. }
  destruct (update_total b1) as [barge' Hb'].
  { rewrite Hfl; discriminate. }
  { exact Hrest1. }
  destruct (update_unfold _ _ Hb') as (fs & its & Hfs & Hits & E).
  rewrite Hfl in Hfs; apply forEach_Forall2 in Hfs.
  inversion Hfs as [|x float' l others' Hhead Htail Ex El]; subst fs.
  exists barge', float', others'; repeat split.
  - exact Hb'.
  - rewrite E; reflexivity.
  - rewrite (tiltFloat_attributes _ _ _ Hhead), He; exact Hst.
  - eapply Forall2_impl; [|exact Htail].
    intros f f' Hff'; eapply tiltFloat_attributes; exact Hff'.
  - rewrite E; simpl; rewrite (forEach_length _ _ _ Hits), Hit; reflexivity.
  - rewrite E; simpl; exact Hn.
Qed.

(** C9.  On a barge with a pontoon whose pontoons have a rest position,
    [updateFloatProperties] returns normally whatever the panel holds;
    a length, width, height or weight that is not a number or is not
    positive leaves the width, depth, height or weight of pontoon 0 as it
    was; the four attributes and the water density stay positive if they
    were; and the attributes of the other pontoons are not touched. *)
Theorem updateFloatProperties_rejects_malformed (barge : Barge.t)
  (input : PanelInput) (float : Float.t) (others : list Float.t) :
  Barge.floats barge = float :: others ->
  Forall hasRest (Barge.floats barge) ->
  exists (barge' : Barge.t) (float' : Float.t) (others' : list Float.t),
    updateFloatProperties barge input = Some barge'
    /\ Barge.floats barge' = float' :: others'
    /\ (malformed (floatLength input) -> Float.width float' = Float.width float)
    /\ (malformed (floatWidth input) -> Float.depth float' = Float.depth float)
    /\ (malformed (floatHeight input) -> Float.height float' = Float.height float)
    /\ (malformed (floatWeight input) -> Float.weight float' = Float.weight float)
    /\ (positiveFloat float -> positiveFloat float')
    /\ Forall2 (fun f f' => attributes f' = attributes f) others others'.
Proof.
  intros Hf Hrest.
  destruct (updateFloatProperties_edits barge input float others Hf Hrest)
    as (barge' & float' & others' & Hu & Hfl & Ha & Ho & _).
  unfold attributes in Ha; injection Ha as Hi Hw Hh Hd Hg Hr _.
  exists barge', float', others'.
  repeat match goal with |- _ /\ _ => split end; auto.
  - intros Hm; rewrite Hw; now apply accepted_malformed.
  - intros Hm; rewrite Hd; now apply accepted_malformed.
  - intros Hm; rewrite Hh; now apply accepted_malformed.
  - intros Hm; rewrite Hg; now apply accepted_malformed.
  - unfold positiveFloat; intros (Pw & Ph & Pd & Pg & Pr).
    rewrite Hw, Hh, Hd, Hg, Hr; repeat split; auto using accepted_positive.
Qed.

(** A length of 0, a height of -3 and unparsable width and weight leave
    the default pontoon 20 by 7 by 10 with weight 20000. *)
Lemma updateFloatProperties_rejects_malformed_witness :
  exists (barge' : Barge.t) (float' : Float.t),
    updateFloatProperties constructed malformedInput = Some barge'
    /\ Barge.floats barge' = [float']
    /\ Float.width float' = 20 /\ Float.depth float' = 10
    /\ Float.height float' = 7 /\ Float.weight float' = 20000.
Proof.
  destruct (updateFloatProperties_rejects_malformed constructed malformedInput
              defaultFloat [] constructed_floats constructed_hasRest)
    as (barge' & float' & others' & Hu & Hfl & Hw & Hd & Hh & Hg & _ & Ho).
  inversion Ho; subst.
  exists barge', float'; repeat split; auto.
  - apply Hw; simpl; lra.
  - apply Hd; simpl; exact I.
  - apply Hh; simpl; lra.
  - apply Hg; simpl; exact I.
Defined.

(** C6, counterexample.  Typing 1 into the length field of the panel
    makes pontoon 0 one unit wide, so that width / 2 - 1 is negative;
    [moveItem(0, 0, 0)] then writes x = 1/2: the request 0 lies beyond
    width / 2 - 1 = -1/2, and what is written is neither -1/2 nor inside
    the rectangle. *)
Lemma moveItem_narrow_pontoon :
  exists (b1 : Barge.t) (f1 : Float.t) (b2 : Barge.t) (item : Item.t),
    updateFloatProperties constructed narrowInput = Some b1
    /\ Barge.floats b1 = [f1]
    /\ Float.width f1 = 1
    /\ Barge.moveItem b1 0 0 0 = Some b2
    /\ nth_error (Barge.items b2) 0 = Some item
    /\ vx (Item.position item) = 1 / 2
    /\ Float.width f1 / 2 - 1 < 0
    /\ vx (Item.position item) <> Float.width f1 / 2 - 1
    /\ ~ withinDeck (Float.width f1 / 2 - 1) (vx (Item.position item)).
Proof.
  destruct (updateFloatProperties_edits constructed narrowInput defaultFloat []
              constructed_floats constructed_hasRest)
    as (b1 & f1 & others' & Hu & Hfl & Ha & Ho & Hlen & _).
  inversion Ho; subst others'.
  unfold attributes in Ha; injection Ha as _ Hw _ _ _ _ Hr.
  assert (Hw1 : Float.width f1 = 1).
  { rewrite Hw; simpl; destruct (Rlt_dec 0 1); [reflexivity|lra]. }
  destruct (moveItem_writes b1 0 0 0 f1 [] Hfl) as
    (written & b2 & item & _ & _ & _ & Hm & Hn & Hx & _).
  { rewrite Hfl; repeat constructor; eexists; exact Hr. }
  { rewrite Hlen, constructed_items; simpl; lia. }
  rewrite clamp_narrow in Hx by (rewrite Hw1; lra).
  exists b1, f1, b2, item; rewrite Hx, Hw1.
  repeat match goal with |- _ /\ _ => split end; auto; try lra.
  unfold withinDeck; lra.
Qed.

(** ** The item at offset 10 *)

(** [moveItem(0, 10, 0)] on a single 20 by 10 pontoon at the origin. *)
Lemma moveItem_origin_10 (b : Barge.t) (f : Float.t) (item0 : Item.t)
  (others : list Item.t) (rest : Vector3) :
  Barge.floats b = [f] -> Float.restPosition f = Some rest ->
  Float.width f = 20 -> Float.depth f = 10 ->
  vx (Float.position f) = 0 -> vz (Float.position f) = 0 ->
  Barge.items b = item0 :: others ->
  exists (b' : Barge.t) (item' : Item.t) (others' : list Item.t),
    Barge.moveItem b 0 10 0 = Some b'
    /\ Barge.items b' = item' :: others'
    /\ vx (Item.position item') = 9 /\ vz (Item.position item') = 0
    /\ Barge.tiltZ b' = 0.045 /\ Barge.tiltX b' = 0.
Proof.
  intros Hf Hr Hw Hd Hx Hz Hi.
  assert (Hrest : Forall hasRest (Barge.floats b)).
  { rewrite Hf; repeat constructor; eexists; exact Hr. }
  destruct (moveItem_writes b 0 10 0 f [] Hf Hrest) as
    (written & b' & item' & Hwr & Hwf & Hu & Hm & _).
  { rewrite Hi; simpl; lia. }
  unfold Barge.writeItem in Hwr; rewrite Hf, Hi in Hwr; simpl in Hwr.
  injection Hwr as <-.
  rewrite Hw, Hd in Hu.
  rewrite (clamp_beyond (20 / 2 - 1) 10), (clamp_inside (10 / 2 - 1) 0) in Hu
    by (unfold withinDeck; lra).
  match type of Hu with
  | Barge.update (Barge.set_items b (?i :: others)) = _ =>
      destruct (update_single (Barge.set_items b (i :: others)) b' f i others rest
                  Hf eq_refl Hr
                  ltac:(unfold footprintArea; rewrite Hw, Hd; lra) Hu)
        as (_ & Htx & Htz & _ & (i' & its' & Hi' & Hix & Hiz))
  end.
  simpl in Htx, Htz, Hix, Hiz.
  exists b', i', its'; rewrite Htx, Htz, Hix, Hiz, Hx, Hz.
  repeat split; auto; lra.
Qed.

(** C8, as amended.  On a barge with a single 20 by 10 pontoon at the
    origin, an item 0 at x = 10, z = 0 gives, at the next [update],
    tiltAboutZAxis = 0.05 and tiltAboutXAxis = 0; but [moveItem] does not
    put the item there: [moveItem(0, 10, 0)] writes x = 9, z = 0 and gives
    tiltAboutZAxis = 0.045 and tiltAboutXAxis = 0. *)
Theorem tilt_at_offset_10 (b : Barge.t) (f : Float.t) (item0 : Item.t)
  (others : list Item.t) (rest : Vector3) :
  Barge.floats b = [f] -> Float.restPosition f = Some rest ->
  Float.width f = 20 -> Float.depth f = 10 ->
  vx (Float.position f) = 0 -> vz (Float.position f) = 0 ->
  Barge.items b = item0 :: others ->
  (forall b' : Barge.t,
     vx (Item.position item0) = 10 -> vz (Item.position item0) = 0 ->
     Barge.update b = Some b' ->
     Barge.tiltZ b' = 0.05 /\ Barge.tiltX b' = 0)
  /\ (exists (b' : Barge.t) (item' : Item.t) (others' : list Item.t),
        Barge.moveItem b 0 10 0 = Some b'
        /\ Barge.items b' = item' :: others'
        /\ vx (Item.position item') = 9 /\ vz (Item.position item') = 0
        /\ Barge.tiltZ b' = 0.045 /\ Barge.tiltX b' = 0).
Proof.
  intros Hf Hr Hw Hd Hx Hz Hi; split.
  - intros b' Hix Hiz Hu.
    destruct (update_single _ _ f item0 others rest Hf Hi Hr
                ltac:(unfold footprintArea; rewrite Hw, Hd; lra) Hu)
      as (_ & Htx & Htz & _).
    simpl in Htx, Htz; rewrite Htx, Htz, Hix, Hiz, Hx, Hz; split; lra.
  - eapply moveItem_origin_10; eassumption.
Qed.

(** The item set down at x = 10 on the default pontoon tilts it by 0.05;
    dragged there from the center of the constructed barge it stops at 9
    and tilts it by 0.045. *)
Lemma tilt_at_offset_10_witness :
  (exists b' : Barge.t,
     Barge.update (Barge.mk [defaultFloat] [itemAt 10 0] 2 (mkVector3 0 0 0) 0 0)
     = Some b'
     /\ Barge.tiltZ b' = 0.05 /\ Barge.tiltX b' = 0)
  /\ (exists b' : Barge.t,
        Barge.moveItem constructed 0 10 0 = Some b'
        /\ Barge.tiltZ b' = 0.045 /\ Barge.tiltX b' = 0).
Proof.
  split.
  - destruct (update_total
                (Barge.mk [defaultFloat] [itemAt 10 0] 2 (mkVector3 0 0 0) 0 0))
      as [b' Hb'].
    { discriminate. }
    { repeat constructor; eexists; reflexivity. }
    exists b'; split; [exact Hb'|].
    apply (tilt_at_offset_10
             (Barge.mk [defaultFloat] [itemAt 10 0] 2 (mkVector3 0 0 0) 0 0)
             defaultFloat (itemAt 10 0) [] (mkVector3 0 defaultRestY 0));
      reflexivity || exact Hb'.
  - destruct (tilt_at_offset_10 constructed defaultFloat (itemAt 0 0) []
                (mkVector3 0 defaultRestY 0) constructed_floats)
      as (_ & b' & _ & _ & Hm & _ & _ & _ & Htz & Htx);
      try reflexivity.
    { exact constructed_items. }
    exists b'; auto.
Defined.

(** C8, counterexample.  On the constructed barge, a single 20 by 10
    pontoon at the origin with the item at its center, [moveItem(0, 10, 0)]
    leaves the item at x = 9 and the tilt about z at 0.045, not 0.05. *)
Lemma moveItem_10_tilt :
  exists (b' : Barge.t) (item' : Item.t) (others' : list Item.t),
    Barge.floats constructed = [defaultFloat]
    /\ Barge.moveItem constructed 0 10 0 = Some b'
    /\ Barge.items b' = item' :: others'
    /\ vx (Item.position item') = 9
    /\ Barge.tiltZ b' = 0.045
    /\ Barge.tiltZ b' <> 0.05.
Proof.
  destruct (moveItem_origin_10 constructed defaultFloat (itemAt 0 0) []
              (mkVector3 0 defaultRestY 0) constructed_floats)
    as (b' & item' & others' & Hm & Hi & Hx & _ & Htz & _);
    try reflexivity.
  { exact constructed_items. }
  exists b', item', others'.
  repeat match goal with |- _ /\ _ => split end; auto.
  rewrite Htz; lra.
Qed.

(** ** The invariant of the application *)

Lemma attributes_hasRest (f f' : Float.t) :
  attributes f' = attributes f -> hasRest f -> hasRest f'.
Proof.
  unfold attributes; intros [= _ _ _ _ _ _ Hr] [rest H]; exists rest; congruence.
Qed.

Lemma attributes_positive (f f' : Float.t) :
  attributes f' = attributes f -> positiveFloat f -> positiveFloat f'.
Proof.
  unfold attributes, positiveFloat; intros [= _ Hw Hh Hd Hg Hr _].
  now rewrite Hw, Hh, Hd, Hg, Hr.
Qed.

Lemma attributes_id (n : nat) (f f' : Float.t) :
  attributes f' = attributes f -> (Float.id f < n)%nat -> (Float.id f' < n)%nat.
Proof.
  unfold attributes; intros [= Hi _ _ _ _ _ _]; now rewrite Hi.
Qed.

Lemma Forall2_length_eq {A : Type} (P : A -> A -> Prop) (xs ys : list A) :
  Forall2 P xs ys -> length ys = length xs.
Proof.
  induction 1; simpl; congruence.
Qed.

(** What [update] leaves as it was. *)
Lemma update_preserves (b b' : Barge.t) :
  Barge.update b = Some b' ->
  Forall2 (fun f f' => attributes f' = attributes f) (Barge.floats b) (Barge.floats b')
  /\ length (Barge.items b') = length (Barge.items b)
  /\ Barge.nextFloatId b' = Barge.nextFloatId b.
Proof.
  intros H; destruct (update_unfold _ _ H) as (fs & its & Hfs & Hits & ->); simpl.
  repeat split.
  - eapply Forall2_impl; [|apply forEach_Forall2, Hfs].
    intros f f' Hff'; eapply tiltFloat_attributes; exact Hff'.
  - eapply forEach_length; exact Hits.
Qed.

Lemma nonempty_length {A : Type} (xs ys : list A) :
  length ys = length xs -> xs <> [] -> ys <> [].
Proof.
  destruct xs, ys; simpl; congruence.
Qed.

(** The invariant only looks at the attributes of the pontoons, at the
    number of items and at the next identifier. *)
Lemma invariant_transfer (b b' : Barge.t) :
  Forall2 (fun f f' => attributes f' = attributes f) (Barge.floats b) (Barge.floats b') ->
  length (Barge.items b') = length (Barge.items b) ->
  Barge.nextFloatId b' = Barge.nextFloatId b ->
  invariant b -> invariant b'.
Proof.
  intros Hfs Hits Hn [If Ii Ir Ip Id]; constructor.
  - eapply nonempty_length; [eapply Forall2_length_eq; exact Hfs | exact If].
  - eapply nonempty_length; [exact Hits | exact Ii].
  - eapply Forall2_keeps_Forall; [|exact Hfs|exact Ir].
    intros f f'; apply attributes_hasRest.
  - eapply Forall2_keeps_Forall; [|exact Hfs|exact Ip].
    intros f f'; apply attributes_positive.
  - rewrite Hn; eapply Forall2_keeps_Forall; [|exact Hfs|exact Id].
    intros f f'; apply attributes_id.
Qed.

Lemma invariant_update (b b' : Barge.t) :
  invariant b -> Barge.update b = Some b' -> invariant b'.
Proof.
  intros Hinv H; destruct (update_preserves _ _ H) as (Hfs & Hits & Hn).
  eapply invariant_transfer; eassumption.
Qed.

Lemma invariant_addFloat (b : Barge.t) :
  Forall hasRest (Barge.floats b) ->
  Forall positiveFloat (Barge.floats b) ->
  Forall (fun f => (Float.id f < Barge.nextFloatId b)%nat) (Barge.floats b) ->
  Forall hasRest (Barge.floats (fst (Barge.addFloat b)))
  /\ Forall positiveFloat (Barge.floats (fst (Barge.addFloat b)))
  /\ Forall (fun f => (Float.id f < Barge.nextFloatId (fst (Barge.addFloat b)))%nat)
       (Barge.floats (fst (Barge.addFloat b)))
  /\ Barge.floats (fst (Barge.addFloat b)) <> []
  /\ Barge.items (fst (Barge.addFloat b)) = Barge.items b.
Proof.
  intros Ir Ip Id.
  pose proof (addFloat_barge b) as Hb; simpl in Hb; rewrite Hb; simpl.
  destruct (addFloat_placement b) as (_ & Hr & Hw & Hh & Hd & Hg & Hy).
  pose proof (addFloat_id b) as Hid.
  repeat split.
  - apply Forall_app; split; [exact Ir|].
    constructor; [eexists; exact Hr | constructor].
  - apply Forall_app; split; [exact Ip|].
    constructor; [|constructor].
    unfold positiveFloat; rewrite Hw, Hh, Hd, Hg, Hy; lra.
  - apply Forall_app; split.
    + eapply Forall_impl; [|exact Id]; simpl; intros f Hf; lia.
    + constructor; [rewrite Hid; lia | constructor].
  - destruct (Barge.floats b); discriminate.
Qed.

Lemma invariant_new (b : Barge.t) : Barge.new = Some b -> invariant b.
Proof.
  rewrite new_constructed; intros [= <-].
  destruct (invariant_addFloat Barge.empty (Forall_nil _) (Forall_nil _) (Forall_nil _))
    as (Hr & Hp & Hi & Hne & _).
  constructor.
  - rewrite constructed_floats; discriminate.
  - rewrite constructed_items; discriminate.
  - exact Hr.
  - exact Hp.
  - exact Hi.
Qed.

Lemma writeItem_preserves (b written : Barge.t) (itemIndex : nat) (x z : R) :
  Barge.writeItem b itemIndex x z = Some written ->
  Barge.floats written = Barge.floats b
  /\ length (Barge.items written) = length (Barge.items b)
  /\ Barge.nextFloatId written = Barge.nextFloatId b.
Proof.
  unfold Barge.writeItem.
  destruct (Barge.floats b) as [|f fs] eqn:Hf; [discriminate|].
  destruct (nth_error (Barge.items b) itemIndex); [|discriminate].
  intros [= <-]; simpl; rewrite replace_length; auto.
Qed.

Lemma Forall2_same_attributes (fs : list Float.t) :
  Forall2 (fun f f' => attributes f' = attributes f) fs fs.
Proof.
  induction fs; constructor; auto.
Qed.

(** Every action keeps the invariant. *)
Lemma invariant_perform (a : Action) (b b' : Barge.t) :
  invariant b -> perform a b = Some b' -> invariant b'.
Proof.
  intros Hinv; destruct a as [| | |i x z|input]; simpl.
  - apply invariant_update; exact Hinv.
  - intros [= <-]; destruct Hinv as [If Ii Ir Ip Id].
    destruct (invariant_addFloat b Ir Ip Id) as (Hr & Hp & Hi & Hne & Hit).
    constructor; auto; rewrite Hit; exact Ii.
  - unfold Barge.addItem.
    destruct (Barge.floats b) as [|f fs] eqn:Hf; simpl; [discriminate|].
    intros [= <-]; destruct Hinv as [If Ii Ir Ip Id].
    constructor; simpl; rewrite ?Hf; auto.
    + discriminate.
    + destruct (Barge.items b); discriminate.
    + rewrite <- Hf; exact Ir.
    + rewrite <- Hf; exact Ip.
    + rewrite <- Hf; exact Id.
  - unfold Barge.moveItem.
    destruct (i <? length (Barge.items b))%nat; [|intros [= <-]; exact Hinv].
    destruct (Barge.writeItem b i x z) as [written|] eqn:Hw; simpl; [|discriminate].
    destruct (writeItem_preserves _ _ _ _ _ Hw) as (Hf & Hl & Hn).
    apply invariant_update.
    eapply invariant_transfer; [| exact Hl | exact Hn | exact Hinv].
    rewrite Hf; apply Forall2_same_attributes.
  - destruct Hinv as [If Ii Ir Ip Id].
    destruct (Barge.floats b) as [|float others] eqn:Hf; [congruence|].
    rewrite <- Hf in Ir.
    destruct (updateFloatProperties_edits b input float others Hf Ir)
      as (b1 & float' & others' & Hu & Hfl & Ha & Ho & Hlen & Hn).
    rewrite Hu; intros [= <-].
    rewrite Hf in Ir.
    inversion Ir as [|? ? Hr0 Hro]; inversion Ip as [|? ? Hp0 Hpo];
      inversion Id as [|? ? Hi0 Hio]; subst.
    unfold attributes in Ha; injection Ha as Ai Aw Ah Ad Ag Ar Ap.
    constructor.
    + rewrite Hfl; discriminate.
    + eapply nonempty_length; [exact Hlen | exact Ii].
    + rewrite Hfl; constructor.
      * destruct Hr0 as [rest Hr0]; exists rest; congruence.
      * eapply Forall2_keeps_Forall; [|exact Ho|exact Hro].
        intros f f'; apply attributes_hasRest.
    + rewrite Hfl; constructor.
      * destruct Hp0 as (Pw & Ph & Pd & Pg & Pr); unfold positiveFloat.
        rewrite Aw, Ah, Ad, Ag, Ar; repeat split; auto using accepted_positive.
      * eapply Forall2_keeps_Forall; [|exact Ho|exact Hpo].
        intros f f'; apply attributes_positive.
    + rewrite Hfl, Hn; constructor.
      * rewrite Ai; exact Hi0.
      * eapply Forall2_keeps_Forall; [|exact Ho|exact Hio].
        intros f f'; apply attributes_id.
Qed.

Lemma reachable_invariant (b : Barge.t) : reachable b -> invariant b.
Proof.
  induction 1 as [b Hnew | a b b' _ IH Hstep].
  - now apply invariant_new.
  - eapply invariant_perform; eassumption.
Qed.

(** No action can raise on a barge that satisfies the invariant. *)
Lemma perform_total (a : Action) (b : Barge.t) :
  invariant b -> exists b', perform a b = Some b'.
Proof.
  intros [If Ii Ir Ip Id]; destruct a as [| | |i x z|input]; simpl.
  - now apply update_total.
  - eauto.
  - unfold Barge.addItem; destruct (Barge.floats b); [congruence|]; simpl; eauto.
  - unfold Barge.moveItem.
    destruct (Nat.ltb_spec i (length (Barge.items b))) as [Hlt|Hge]; [|eauto].
    destruct (Barge.floats b) as [|f fs] eqn:Hf; [congruence|].
    rewrite <- Hf in Ir.
    destruct (moveItem_writes b i x z f fs Hf Ir Hlt)
      as (written & b' & _ & Hw & _ & Hu & _).
    rewrite Hw; simpl; eauto.
  - destruct (Barge.floats b) as [|f fs] eqn:Hf; [congruence|].
    rewrite <- Hf in Ir.
    destruct (updateFloatProperties_edits b input f fs Hf Ir) as (b' & _ & _ & Hu & _).
    eauto.
Qed.

(** No action removes a pontoon or an item. *)
Lemma perform_lengths (a : Action) (b b' : Barge.t) :
  perform a b = Some b' ->
  (length (Barge.floats b) <= length (Barge.floats b'))%nat
  /\ (length (Barge.items b) <= length (Barge.items b'))%nat.
Proof.
  assert (Hup : forall c c', Barge.update c = Some c' ->
                  length (Barge.floats c') = length (Barge.floats c)
                  /\ length (Barge.items c') = length (Barge.items c)).
  { intros c c' H; destruct (update_preserves _ _ H) as (Hfs & Hits & _).
    split; [eapply Forall2_length_eq; exact Hfs | exact Hits]. }
  destruct a as [| | |i x z|input]; simpl.
  - intros H; destruct (Hup _ _ H); lia.
  - intros [= <-]; pose proof (addFloat_barge b) as Hb; simpl in Hb; rewrite Hb; simpl.
    rewrite length_app; simpl; lia.
  - unfold Barge.addItem; destruct (Barge.floats b) eqn:Hf; simpl; [discriminate|].
    intros [= <-]; simpl; rewrite Hf, length_app; simpl; lia.
  - unfold Barge.moveItem.
    destruct (i <? length (Barge.items b))%nat; [|intros [= <-]; lia].
    destruct (Barge.writeItem b i x z) as [written|] eqn:Hw; simpl; [|discriminate].
    destruct (writeItem_preserves _ _ _ _ _ Hw) as (Hf & Hl & _).
    intros H; destruct (Hup _ _ H); rewrite <- Hf, <- Hl; lia.
  - unfold updateFloatProperties.
    destruct (Barge.floats b) as [|float others] eqn:Hf; [discriminate|].
    destruct (editPositive _ _ _) as [float4 recalculateY].
    intros H; destruct (Hup _ _ H) as (H1 & H2).
    rewrite (proj1 (calculateCenterFlotation_fields _)) in H1.
    rewrite (proj1 (proj2 (calculateCenterFlotation_fields _))) in H2.
    simpl in H1, H2; simpl; lia.
Qed.

(** C10.  The constructor succeeds; no action removes a pontoon or an
    item; and every barge that the application reaches has at least one
    pontoon and one item, so that [calculateCenterFlotation] recomputes
    the center (its early return is not taken), [calculateTilt] reads
    item 0 (its guard holds), and no action raises: the accesses to
    pontoon 0 and to the items in [addItem], [updateItemPositions],
    [moveItem] and [updateFloatProperties] find what they look for. *)
Theorem barge_never_empty :
  (exists b0 : Barge.t, Barge.new = Some b0)
  /\ (forall (a : Action) (b b' : Barge.t),
        perform a b = Some b' ->
        (length (Barge.floats b) <= length (Barge.floats b'))%nat
        /\ (length (Barge.items b) <= length (Barge.items b'))%nat)
  /\ (forall b : Barge.t,
        reachable b ->
        (1 <= length (Barge.floats b))%nat
        /\ (1 <= length (Barge.items b))%nat
        /\ Barge.calculateCenterFlotation b
           = Barge.set_centerFlotation b (Barge.centroid (Barge.floats b))
        /\ (exists (item0 : Item.t) (others : list Item.t),
              Barge.items b = item0 :: others
              /\ Barge.calculateTilt b
                 = Barge.set_tilt b
                     (- ((vz (Item.position item0) - vz (Barge.centerFlotation b)) / 5)
                      * 0.05)
                     (((vx (Item.position item0) - vx (Barge.centerFlotation b)) / 10)
                      * 0.05))
        /\ (forall a : Action, exists b' : Barge.t, perform a b = Some b')).
Proof.
  split; [|split].
  - exists constructed; exact new_constructed.
  - exact perform_lengths.
  - intros b Hb; pose proof (reachable_invariant b Hb) as Hinv.
    pose proof Hinv as [If Ii _ _ _].
    repeat match goal with |- _ /\ _ => split end.
    + destruct (Barge.floats b); [congruence | simpl; lia].
    + destruct (Barge.items b); [congruence | simpl; lia].
    + now apply calculateCenterFlotation_nonempty.
    + destruct (Barge.items b) as [|item0 others] eqn:Hi; [congruence|].
      exists item0, others; split; [reflexivity|].
      now apply calculateTilt_cons with (others := others).
    + intros a; now apply perform_total.
Qed.

(** The constructed barge has its pontoon and its item, and so has the
    barge with a second pontoon, on which dragging the item and editing
    the panel do not raise. *)
Lemma barge_never_empty_witness :
  (1 <= length (Barge.floats constructed))%nat
  /\ (1 <= length (Barge.items constructed))%nat
  /\ (1 <= length (Barge.items (fst (Barge.addFloat constructed))))%nat
  /\ (exists b' : Barge.t,
        perform (MoveItem 0 3 1) (fst (Barge.addFloat constructed)) = Some b')
  /\ (exists b' : Barge.t,
        perform (EditFloat narrowInput) (fst (Barge.addFloat constructed)) = Some b').
Proof.
  destruct barge_never_empty as (_ & _ & Hreach).
  assert (H0 : reachable constructed) by (apply reachable_new; exact new_constructed).
  assert (H1 : reachable (fst (Barge.addFloat constructed))).
  { apply (reachable_step AddNewFloat constructed); [exact H0 | reflexivity]. }
  destruct (Hreach constructed H0) as (Hf & Hi & _).
  destruct (Hreach _ H1) as (_ & Hi1 & _ & _ & Htotal).
  repeat match goal with |- _ /\ _ => split end; auto.
Defined.

(** * Further properties of the code *)

(** ** Items under [update] *)

Lemma placeItem_rotation (b : Barge.t) (i i' : Item.t) :
  Barge.placeItem b i = Some i' ->
  vx (Item.rotation i') = - Barge.tiltX b /\ vz (Item.rotation i') = - Barge.tiltZ b.
Proof.
  unfold Barge.placeItem.
  destruct (Barge.floats b) as [|f fs]; [discriminate|].
  destruct (Float.restPosition f); [|discriminate].
  intros [= <-]; simpl; auto.
Qed.

Lemma update_items_sideways (b b' : Barge.t) :
  Barge.update b = Some b' ->
  Forall2
    (fun i i' =>
       vx (Item.position i') = vx (Item.position i)
       /\ vz (Item.position i') = vz (Item.position i))
    (Barge.items b) (Barge.items b').
Proof.
  intros H; destruct (update_unfold _ _ H) as (fs & its & _ & Hits & ->); simpl.
  eapply Forall2_impl; [|apply forEach_Forall2, Hits].
  intros i i' Hi; apply placeItem_keeps in Hi; tauto.
Qed.

(** X1.  [update] moves no item sideways: every item keeps its x and z
    and its dimensions, the number of items stays, and every item gets
    the rotation of the pontoons, -tiltX about x and -tiltZ about z. *)
Theorem update_keeps_items (b b' : Barge.t) :
  Barge.update b = Some b' ->
  Forall2
    (fun i i' =>
       vx (Item.position i') = vx (Item.position i)
       /\ vz (Item.position i') = vz (Item.position i)
       /\ Item.width i' = Item.width i /\ Item.height i' = Item.height i
       /\ Item.depth i' = Item.depth i
       /\ vx (Item.rotation i') = - Barge.tiltX b'
       /\ vz (Item.rotation i') = - Barge.tiltZ b')
    (Barge.items b) (Barge.items b').
Proof.
  intros H; destruct (update_unfold _ _ H) as (fs & its & _ & Hits & ->); simpl.
  eapply Forall2_impl; [|apply forEach_Forall2, Hits].
  intros i i' Hi; simpl in Hi.
  destruct (placeItem_rotation _ _ _ Hi) as (Hrx & Hrz).
  apply placeItem_keeps in Hi; destruct Hi as (Hw & Hh & Hd & Hx & Hz & _).
  simpl in Hrx, Hrz; repeat split; auto.
Qed.

(** The item dragged to x = 9 on the constructed barge is still at x = 9
    after the first call of [update]. *)
Lemma update_keeps_items_witness :
  exists (b' : Barge.t) (i' : Item.t),
    Barge.update dragged = Some b' /\ Barge.items b' = [i']
    /\ vx (Item.position i') = 9 /\ vz (Item.position i') = 0.
Proof.
  destruct (update_total dragged) as [b' Hb'].
  { discriminate. }
  { repeat constructor; eexists; reflexivity. }
  pose proof (update_keeps_items dragged b' Hb') as Hall.
  simpl in Hall.
  inversion Hall as [|i i' l1 l2 (Hx & Hz & _) Hnil E1 E2].
  inversion Hnil; subst.
  exists b', i'; repeat split; auto.
Defined.

Lemma placeItem_height (b : Barge.t) (i i' : Item.t) (f : Float.t)
  (fs : list Float.t) (rest : Vector3) :
  Barge.floats b = f :: fs -> Float.restPosition f = Some rest ->
  Barge.tiltX b = 0 -> Barge.tiltZ b = 0 ->
  Barge.placeItem b i = Some i' ->
  vy (Item.position i') = vy rest + Float.height f / 2 + Item.height i' / 2.
Proof.
  unfold Barge.placeItem; intros -> -> -> ->; intros [= <-]; simpl.
  rewrite Ropp_0, cos_0, sin_0; lra.
Qed.

(** X2.  When [update] ends with both angles at 0, every item lies flat
    on the deck of pontoon 0 at its rest height: the item's y is the rest
    y of pontoon 0 plus half the height of the pontoon plus half the
    height of the item, wherever the item is. *)
Theorem update_untilted_items_on_deck (b b' : Barge.t) (f : Float.t)
  (fs : list Float.t) (rest : Vector3) :
  Barge.floats b = f :: fs -> Float.restPosition f = Some rest ->
  Barge.update b = Some b' ->
  Barge.tiltX b' = 0 -> Barge.tiltZ b' = 0 ->
  Forall
    (fun i' => vy (Item.position i') = vy rest + Float.height f / 2 + Item.height i' / 2)
    (Barge.items b').
Proof.
  intros Hf Hr H Hx Hz.
  destruct (update_unfold _ _ H) as (fs' & its & Hfs & Hits & E).
  rewrite E in Hx, Hz; simpl in Hx, Hz; rewrite E; simpl.
  rewrite Hf in Hfs; apply forEach_Forall2 in Hfs.
  inversion Hfs as [|? f' ? fs'' Hhead _]; subst fs'.
  apply tiltFloat_keeps in Hhead.
  destruct Hhead as (_ & _ & Hh & _ & _ & _ & Hrest & _).
  apply forEach_Forall2 in Hits.
  apply (Forall2_fixed _
           (fun _ i' =>
              vy (Item.position i') = vy rest + Float.height f / 2 + Item.height i' / 2)
           _ _) with (2 := Hits).
  intros i i' Hi; rewrite <- Hh.
  apply (placeItem_height (Barge.set_floats (tilted b) (f' :: fs'')) i i' f' fs'' rest
           eq_refl); auto.
  now rewrite Hrest.
Qed.

(** On the constructed barge the item lies on the deck. *)
Lemma update_untilted_items_on_deck_witness :
  exists (b' : Barge.t) (i' : Item.t),
    Barge.update constructed = Some b' /\ Barge.items b' = [i']
    /\ vy (Item.position i') = defaultRestY + 7 / 2 + Item.height i' / 2.
Proof.
  destruct update_constructed as (b' & Hb' & _ & Hx & Hz & _ & _).
  pose proof (update_untilted_items_on_deck constructed b' defaultFloat []
                (mkVector3 0 defaultRestY 0) constructed_floats eq_refl Hb' Hx Hz)
    as Hall.
  pose proof (update_items_sideways constructed b' Hb') as Hlen.
  rewrite constructed_items in Hlen.
  inversion Hlen as [|i i' l1 l2 _ Hnil E1 E2]; inversion Hnil; subst.
  exists b', i'; repeat split; auto.
  rewrite <- E2 in Hall; inversion Hall; subst; assumption.
Defined.

(** X3.  Without a pontoon, [update] changes nothing when there is no
    item either, and raises as soon as there is an item: the loop of
    [updateItemPositions] reads [floats[0].restPosition]. *)
Theorem update_without_pontoon (b : Barge.t) :
  Barge.floats b = [] ->
  (Barge.items b = [] -> Barge.update b = Some b)
  /\ (Barge.items b <> [] -> Barge.update b = None).
Proof.
  intros Hf; split; intros Hi.
  - destruct b as [fs its n c tx tz]; simpl in *; subst; reflexivity.
  - destruct b as [fs its n c tx tz]; simpl in *; subst.
    destruct its as [|i its]; [congruence|reflexivity].
Qed.

(** The barge before the constructor has added anything, and the same
    with an item put in its list. *)
Lemma update_without_pontoon_witness :
  Barge.update Barge.empty = Some Barge.empty
  /\ Barge.update (Barge.set_items Barge.empty [Item.new]) = None.
Proof.
  split.
  - apply (update_without_pontoon Barge.empty); reflexivity.
  - apply (update_without_pontoon (Barge.set_items Barge.empty [Item.new]));
      [reflexivity | discriminate].
Defined.

(** ** Adding items *)

Lemma forEach_ext {A : Type} (body body' : A -> option A) (xs : list A) :
  (forall x, body x = body' x) -> forEach body xs = forEach body' xs.
Proof.
  intros H; induction xs as [|x xs IH]; simpl; [reflexivity|].
  now rewrite H, IH.
Qed.

Lemma forEach_app {A : Type} (body : A -> option A) (xs ys xs' ys' : list A) :
  forEach body xs = Some xs' -> forEach body ys = Some ys' ->
  forEach body (xs ++ ys) = Some (xs' ++ ys').
Proof.
  revert xs'; induction xs as [|x xs IH]; intros xs'; simpl.
  - intros [= <-] H; exact H.
  - destruct (body x) as [x'|]; simpl; [|discriminate].
    destruct (forEach body xs) as [xs''|]; simpl; [|discriminate].
    intros [= <-] H; rewrite (IH xs'' eq_refl H); reflexivity.
Qed.

Lemma tiltFloat_ext (b b' : Barge.t) (f : Float.t) :
  Barge.centerFlotation b' = Barge.centerFlotation b ->
  Barge.tiltX b' = Barge.tiltX b -> Barge.tiltZ b' = Barge.tiltZ b ->
  Barge.tiltFloat b' f = Barge.tiltFloat b f.
Proof.
  unfold Barge.tiltFloat; intros -> -> ->; reflexivity.
Qed.

Lemma placeItem_ext (b b' : Barge.t) (i : Item.t) :
  Barge.floats b' = Barge.floats b ->
  Barge.centerFlotation b' = Barge.centerFlotation b ->
  Barge.tiltX b' = Barge.tiltX b -> Barge.tiltZ b' = Barge.tiltZ b ->
  Barge.placeItem b' i = Barge.placeItem b i.
Proof.
  unfold Barge.placeItem; intros -> -> -> ->; reflexivity.
Qed.

Lemma addItem_unfold (b b' : Barge.t) (item : Item.t) :
  Barge.addItem b = Some (b', item) ->
  exists (f : Float.t) (fs : list Float.t),
    Barge.floats b = f :: fs
    /\ item = Item.setPosition Item.new (vx (Barge.centerFlotation b))
                (vy (Float.position f) + Float.height f / 2 + 2 / 2)
                (vz (Barge.centerFlotation b))
    /\ b' = Barge.set_items b (Barge.items b ++ [item]).
Proof.
  unfold Barge.addItem.
  destruct (Barge.floats b) as [|f fs]; [discriminate|].
  intros [= <- <-]; exists f, fs; auto.
Qed.

Lemma tiltFloat_placed_hasRest (b : Barge.t) (f f' : Float.t) :
  Barge.tiltFloat b f = Some f' -> hasRest f'.
Proof.
  unfold Barge.tiltFloat.
  destruct (Float.restPosition f) as [rest|] eqn:E; [|discriminate].
  intros [= <-]; exists rest; exact E.
Qed.

(** The center and the angles that [update] works with only depend on
    the pontoons and on item 0. *)
Lemma tilted_more_items (b : Barge.t) (extra : list Item.t) :
  Barge.items b <> [] ->
  let b2 := Barge.set_items b (Barge.items b ++ extra) in
  Barge.centerFlotation (tilted b2) = Barge.centerFlotation (tilted b)
  /\ Barge.tiltX (tilted b2) = Barge.tiltX (tilted b)
  /\ Barge.tiltZ (tilted b2) = Barge.tiltZ (tilted b).
Proof.
  intros Hne b2.
  assert (Hc : Barge.centerFlotation (tilted b2) = Barge.centerFlotation (tilted b)).
  { destruct (tilted_fields b2) as (_ & _ & _ & ->).
    destruct (tilted_fields b) as (_ & _ & _ & ->).
    unfold b2, Barge.calculateCenterFlotation; simpl.
    destruct (Barge.floats b); reflexivity. }
  destruct (tilted_tilt b2) as (Hx2 & Hz2), (tilted_tilt b) as (Hx & Hz).
  rewrite Hx2, Hz2, Hx, Hz, Hc; unfold b2; simpl.
  destruct (Barge.items b) as [|i0 rest]; [congruence|simpl; auto].
Qed.

(** X5.  On a barge that has an item, adding another item changes
    nothing of what [update] computes: after [addItem] and [update] the
    pontoons, the center, the angles and the earlier items are exactly
    those that [update] alone gives, with the new item, placed, behind
    them. *)
Theorem addItem_then_update (b b1 b2 : Barge.t) (item : Item.t) :
  Barge.items b <> [] ->
  Barge.update b = Some b1 ->
  Barge.addItem b = Some (b2, item) ->
  exists (b3 : Barge.t) (item' : Item.t),
    Barge.update b2 = Some b3
    /\ Barge.placeItem b1 item = Some item'
    /\ b3 = Barge.set_items b1 (Barge.items b1 ++ [item']).
Proof.
  intros Hne H1 H2.
  destruct (addItem_unfold _ _ _ H2) as (f & fs & Hf & _ & ->).
  destruct (tilted_more_items b [item] Hne) as (Hc & Hx & Hz).
  set (b2 := Barge.set_items b (Barge.items b ++ [item])) in *.
  destruct (update_unfold _ _ H1) as (fs1 & its1 & Hfs1 & Hits1 & E1).
  assert (Hfs2 : forEach (Barge.tiltFloat (tilted b2)) (Barge.floats b2) = Some fs1).
  { rewrite <- Hfs1; apply forEach_ext; intros g; now apply tiltFloat_ext. }
  assert (Hsame : forall i,
             Barge.placeItem (Barge.set_floats (tilted b2) fs1) i
             = Barge.placeItem b1 i).
  { intros i; apply placeItem_ext; rewrite E1; simpl; auto. }
  assert (Hb1 : forall i,
             Barge.placeItem (Barge.set_floats (tilted b) fs1) i
             = Barge.placeItem b1 i).
  { intros i; apply placeItem_ext; rewrite E1; simpl; auto. }
  destruct (placeItem_total b1 item) as [item' Hitem'].
  { rewrite E1; simpl; intros ->.
    rewrite Hf in Hfs1; simpl in Hfs1.
    destruct (Barge.tiltFloat (tilted b) f); simpl in Hfs1; [|discriminate].
    destruct (forEach _ fs); discriminate. }
  { rewrite E1; simpl.
    apply (Forall2_fixed _ (fun _ g' => hasRest g') _ _)
      with (2 := forEach_Forall2 _ _ _ Hfs1).
    intros g g' Hg; eapply tiltFloat_placed_hasRest; exact Hg. }
  exists (Barge.set_items b1 (Barge.items b1 ++ [item'])), item'.
  split; [|split; [exact Hitem'|reflexivity]].
  rewrite (update_fold b2 fs1 (its1 ++ [item'])).
  - rewrite Hc, Hx, Hz, E1; reflexivity.
  - exact Hfs2.
  - simpl; apply forEach_app.
    + rewrite <- Hits1; apply forEach_ext; intros i; now rewrite Hsame, Hb1.
    + simpl; now rewrite Hsame, Hitem'.
Qed.

(** After a second item has been added to the constructed barge,
    [update] still finds no tilt and one pontoon. *)
Lemma addItem_then_update_witness :
  exists (b1 b2 b3 : Barge.t) (item : Item.t),
    Barge.update constructed = Some b1
    /\ Barge.addItem constructed = Some (b2, item)
    /\ Barge.update b2 = Some b3
    /\ Barge.floats b3 = Barge.floats b1
    /\ Barge.tiltZ b3 = Barge.tiltZ b1
    /\ length (Barge.items b3) = S (length (Barge.items b1)).
Proof.
  destruct update_constructed as (b1 & Hb1 & _).
  destruct (Barge.addItem constructed) as [[b2 item]|] eqn:H2.
  - destruct (addItem_then_update constructed b1 b2 item) as (b3 & item' & H3 & _ & E);
      auto.
    { rewrite constructed_items; discriminate. }
    subst b3.
    exists b1, b2, (Barge.set_items b1 (Barge.items b1 ++ [item'])), item.
    repeat match goal with |- _ /\ _ => split end; auto.
    simpl; rewrite length_app; simpl; lia.
  - unfold Barge.addItem in H2; rewrite constructed_floats in H2; discriminate.
Defined.

(** ** Area *)

Lemma sumR_app (l l' : list R) : sumR (l ++ l') = sumR l + sumR l'.
Proof.
  induction l as [|x l IH]; simpl; [lra|rewrite IH; lra].
Qed.

Lemma addFloats_S (n : nat) (b : Barge.t) :
  addFloats (S n) b = fst (Barge.addFloat (addFloats n b)).
Proof.
  revert b; induction n as [|n IH]; intros b; [reflexivity|].
  change (addFloats (S (S n)) b) with (addFloats (S n) (fst (Barge.addFloat b))).
  rewrite IH; reflexivity.
Qed.

Lemma calculateArea_addFloat (b : Barge.t) :
  Barge.calculateArea (fst (Barge.addFloat b)) = Barge.calculateArea b + 200.
Proof.
  rewrite !calculateArea_sum.
  pose proof (addFloat_barge b) as Hb; simpl in Hb; rewrite Hb; simpl.
  rewrite map_app, sumR_app; simpl.
  destruct (addFloat_placement b) as (_ & _ & Hw & _ & Hd & _).
  unfold footprintArea; rewrite Hw, Hd; lra.
Qed.

(** X6.  Every pontoon that [addFloat] adds enlarges the area that
    [calculateArea] returns by the default footprint, 20 x 10 = 200:
    after [n] calls the area is 200 n more, whatever the barge was. *)
Theorem calculateArea_addFloats (n : nat) (b : Barge.t) :
  Barge.calculateArea (addFloats n b) = Barge.calculateArea b + 200 * INR n.
Proof.
  induction n as [|n IH].
  - simpl; lra.
  - rewrite addFloats_S, calculateArea_addFloat, IH, S_INR; lra.
Qed.

Lemma attributes_footprint (fs fs' : list Float.t) :
  Forall2 (fun f f' => attributes f' = attributes f) fs fs' ->
  map footprintArea fs' = map footprintArea fs.
Proof.
  induction 1 as [|f f' fs fs' H _ IH]; simpl; [reflexivity|].
  unfold attributes in H; injection H as _ Hw _ Hd _ _ _.
  unfold footprintArea at 1 3; now rewrite Hw, Hd, IH.
Qed.

Lemma sumR_positive (fs : list Float.t) :
  fs <> [] -> Forall positiveFloat fs -> 0 < sumR (map footprintArea fs).
Proof.
  intros Hne H; induction H as [|f fs (Hw & _ & Hd & _) Hfs IH]; [congruence|].
  simpl; assert (0 < footprintArea f) by (unfold footprintArea; nra).
  destruct fs as [|g fs]; [simpl; lra|].
  assert (0 < sumR (map footprintArea (g :: fs))) by (apply IH; discriminate).
  lra.
Qed.

(** X7.  On every barge that the application reaches the area is
    positive, so that [calculateCenterFlotation] never divides by zero;
    and the area is not changed by [update], hence not by tilting. *)
Theorem reachable_area_positive (b : Barge.t) :
  reachable b ->
  0 < Barge.calculateArea b
  /\ (forall b' : Barge.t,
        Barge.update b = Some b' -> Barge.calculateArea b' = Barge.calculateArea b).
Proof.
  intros Hb; destruct (reachable_invariant b Hb) as [If _ _ Ip _]; split.
  - rewrite calculateArea_sum; now apply sumR_positive.
  - intros b' H; rewrite !calculateArea_sum.
    destruct (update_preserves _ _ H) as (Hfs & _).
    now rewrite (attributes_footprint _ _ Hfs).
Qed.

(** The constructed barge has a positive area, which one frame keeps. *)
Lemma reachable_area_positive_witness :
  0 < Barge.calculateArea constructed
  /\ (exists b' : Barge.t,
        Barge.update constructed = Some b'
        /\ Barge.calculateArea b' = Barge.calculateArea constructed).
Proof.
  destruct (reachable_area_positive constructed) as (Hpos & Hkeep).
  { apply reachable_new; exact new_constructed. }
  split; [exact Hpos|].
  destruct update_constructed as (b' & Hb' & _).
  exists b'; split; [exact Hb' | apply Hkeep; exact Hb'].
Defined.

(** ** Where the center of flotation lies *)

Lemma weighted_sum_bounds (coordinate : Float.t -> R) (lo hi : R)
  (fs : list Float.t) :
  Forall (fun f => 0 < footprintArea f) fs ->
  Forall (fun f => lo <= coordinate f <= hi) fs ->
  lo * sumR (map footprintArea fs)
    <= sumR (map (fun f => coordinate f * footprintArea f) fs)
    <= hi * sumR (map footprintArea fs).
Proof.
  intros Ha Hc; induction Ha as [|f fs Hf _ IH]; simpl; [lra|].
  inversion Hc as [|? ? Hcf Hcs]; subst.
  specialize (IH Hcs); nra.
Qed.

Lemma footprints_positive (fs : list Float.t) :
  fs <> [] -> Forall (fun f => 0 < footprintArea f) fs ->
  0 < sumR (map footprintArea fs).
Proof.
  intros Hne H; induction H as [|f fs Hf Hfs IH]; [congruence|].
  simpl; destruct fs as [|g fs]; [simpl; lra|].
  assert (0 < sumR (map footprintArea (g :: fs))) by (apply IH; discriminate).
  lra.
Qed.

Lemma quotient_between (s a lo hi : R) :
  0 < a -> lo * a <= s <= hi * a -> lo <= s / a <= hi.
Proof.
  intros Ha (H1 & H2).
  assert (E : s / a * a = s) by (field; lra).
  split; apply Rmult_le_reg_r with a; auto; rewrite E; assumption.
Qed.

(** X8.  The center that [calculateCenterFlotation] computes lies among
    the pontoons: when every pontoon has a positive footprint and every
    pontoon's x lies between [xlo] and [xhi], and z between [zlo] and
    [zhi], so do the x and z of the center. *)
Theorem calculateCenterFlotation_between (b : Barge.t) (xlo xhi zlo zhi : R) :
  Barge.floats b <> [] ->
  Forall (fun f => 0 < footprintArea f) (Barge.floats b) ->
  Forall (fun f => xlo <= vx (Float.position f) <= xhi) (Barge.floats b) ->
  Forall (fun f => zlo <= vz (Float.position f) <= zhi) (Barge.floats b) ->
  let c := Barge.centerFlotation (Barge.calculateCenterFlotation b) in
  xlo <= vx c <= xhi /\ zlo <= vz c <= zhi.
Proof.
  intros Hne Ha Hx Hz c; subst c.
  rewrite calculateCenterFlotation_nonempty, centroid_sums by assumption; simpl.
  pose proof (footprints_positive _ Hne Ha) as Hpos.
  pose proof (weighted_sum_bounds (fun f => vx (Float.position f)) xlo xhi _ Ha Hx)
    as (Hx1 & Hx2).
  pose proof (weighted_sum_bounds (fun f => vz (Float.position f)) zlo zhi _ Ha Hz)
    as (Hz1 & Hz2).
  split; apply quotient_between; auto.
Qed.

(** The center of two default pontoons side by side lies between x = 0
    and x = 20, at z = 0. *)
Lemma calculateCenterFlotation_between_witness :
  0 <= vx (Barge.centerFlotation (Barge.calculateCenterFlotation twoFloats)) <= 20
  /\ 0 <= vz (Barge.centerFlotation (Barge.calculateCenterFlotation twoFloats)) <= 0.
Proof.
  apply (calculateCenterFlotation_between twoFloats 0 20 0 0).
  - discriminate.
  - repeat constructor; unfold footprintArea; simpl; lra.
  - repeat constructor; simpl; lra.
  - repeat constructor; simpl; lra.
Defined.

(** ** A row of default pontoons *)

Lemma addFloat_inRow (k : nat) (b : Barge.t) :
  inRow k (Barge.floats b) -> inRow (S k) (Barge.floats (fst (Barge.addFloat b))).
Proof.
  unfold inRow; intros H.
  pose proof (addFloat_barge b) as Hb; simpl in Hb; rewrite Hb.
  cbn [Barge.floats].
  rewrite seq_S, !map_app, H; cbn [map Nat.add]; f_equal; f_equal.
  destruct (addFloat_placement b) as (_ & _ & Hw & _ & Hd & _).
  unfold footprintOf; rewrite Hw, Hd.
  destruct k as [|k].
  - destruct (Barge.floats b) as [|f fs] eqn:Hf; [|discriminate].
    rewrite (addFloat_first b Hf); simpl.
    replace (20 * 0) with 0 by lra; reflexivity.
  - destruct (Barge.floats b) as [|f fs] eqn:Hf; [discriminate|].
    assert (Hne : f :: fs <> []) by discriminate.
    destruct (exists_last Hne) as (pre & prev & E).
    rewrite E in H, Hf.
    rewrite seq_S, !map_app in H; simpl in H.
    apply app_inj_tail in H; destruct H as (_ & Hprev).
    unfold footprintOf in Hprev; injection Hprev as Hx Hz Hpw _.
    rewrite (addFloat_after b pre prev Hf); simpl.
    rewrite Hx, Hz, Hpw.
    change (match k with 0%nat => 1 | S _ => INR k + 1 end) with (INR (S k)).
    rewrite S_INR.
    replace (20 * INR k + 20 / 2 + 20 / 2) with (20 * (INR k + 1)) by lra.
    reflexivity.
Qed.

Lemma addFloats_inRow (n : nat) : inRow n (Barge.floats (addFloats n Barge.empty)).
Proof.
  induction n as [|n IH]; [reflexivity|].
  rewrite addFloats_S; now apply addFloat_inRow.
Qed.

Lemma row_sums (k : nat) :
  sumR (map (fun i => 20 * INR i * (20 * 10)) (seq 0 k)) = 2000 * INR k * (INR k - 1)
  /\ sumR (map (fun _ : nat => 0 * (20 * 10)) (seq 0 k)) = 0
  /\ sumR (map (fun _ : nat => 20 * 10) (seq 0 k)) = 200 * INR k.
Proof.
  induction k as [|k (IH1 & IH2 & IH3)]; [simpl; repeat split; lra|].
  rewrite seq_S, !map_app, !sumR_app, IH1, IH2, IH3, S_INR; simpl.
  repeat split; lra.
Qed.

(** X9.  [n] pontoons added to the empty barge form a row of default
    pontoons at x = 0, 20, 40, ... and z = 0, and for n >= 1 the center of
    flotation is the middle of the row: x = 10 (n - 1), y = 0, z = 0. *)
Theorem addFloats_center (n : nat) :
  (1 <= n)%nat ->
  inRow n (Barge.floats (addFloats n Barge.empty))
  /\ Barge.centerFlotation (addFloats n Barge.empty)
     = mkVector3 (10 * (INR n - 1)) 0 0.
Proof.
  intros Hn; split; [apply addFloats_inRow|].
  destruct n as [|n]; [lia|].
  rewrite addFloats_S.
  pose proof (addFloat_barge (addFloats n Barge.empty)) as Hb; simpl in Hb.
  pose proof (addFloats_inRow (S n)) as Hrow.
  rewrite addFloats_S, Hb in Hrow; simpl in Hrow.
  rewrite Hb; simpl; rewrite centroid_sums.
  set (fs := Barge.floats (addFloats n Barge.empty)
             ++ [snd (Barge.addFloat (addFloats n Barge.empty))]) in *.
  assert (Hx : map (fun f => vx (Float.position f) * footprintArea f) fs
               = map (fun i => 20 * INR i * (20 * 10)) (seq 0 (S n))).
  { change (fun f => vx (Float.position f) * footprintArea f)
      with (fun f => (fun t : R * R * R * R =>
                        let '(x, _, w, d) := t in x * (w * d)) (footprintOf f)).
    rewrite <- (map_map footprintOf), Hrow, map_map; reflexivity. }
  assert (Hz : map (fun f => vz (Float.position f) * footprintArea f) fs
               = map (fun _ : nat => 0 * (20 * 10)) (seq 0 (S n))).
  { change (fun f => vz (Float.position f) * footprintArea f)
      with (fun f => (fun t : R * R * R * R =>
                        let '(_, z, w, d) := t in z * (w * d)) (footprintOf f)).
    rewrite <- (map_map footprintOf), Hrow, map_map; reflexivity. }
  assert (Ha : map footprintArea fs = map (fun _ : nat => 20 * 10) (seq 0 (S n))).
  { change footprintArea
      with (fun f => (fun t : R * R * R * R =>
                        let '(_, _, w, d) := t in w * d) (footprintOf f)).
    rewrite <- (map_map footprintOf), Hrow, map_map; reflexivity. }
  rewrite Hx, Hz, Ha.
  destruct (row_sums (S n)) as (-> & -> & ->).
  assert (Hpos : 0 < INR (S n)) by (apply lt_0_INR; lia).
  replace (2000 * INR (S n) * (INR (S n) - 1) / (200 * INR (S n)))
    with (10 * (INR (S n) - 1)) by (field; lra).
  replace (0 / (200 * INR (S n))) with 0 by (field; lra).
  reflexivity.
Qed.

(** Three pontoons in a row have their center at x = 20. *)
Lemma addFloats_center_witness :
  Barge.centerFlotation (addFloats 3 Barge.empty) = mkVector3 20 0 0.
Proof.
  destruct (addFloats_center 3) as (_ & ->); [lia|].
  replace (10 * (INR 3 - 1)) with 20 by (simpl; lra); reflexivity.
Defined.

(** ** What the actions keep of the pontoons *)

Lemma Forall2_map_eq {A B : Type} (g : A -> B) (xs ys : list A) :
  Forall2 (fun x y => g y = g x) xs ys -> map g ys = map g xs.
Proof.
  induction 1; simpl; congruence.
Qed.

(** The layout only looks at the identifier, the water density and the
    rest position of pontoon 0, at the attributes of the others and at
    the next identifier. *)
Lemma layout_transfer (b b' : Barge.t) (f f' : Float.t) (fs fs' : list Float.t) :
  Barge.floats b = f :: fs -> Barge.floats b' = f' :: fs' ->
  Float.id f' = Float.id f ->
  Float.waterDensity f' = Float.waterDensity f ->
  Float.restPosition f' = Float.restPosition f ->
  Forall2 (fun g g' => attributes g' = attributes g) fs fs' ->
  Barge.nextFloatId b' = Barge.nextFloatId b ->
  layout b -> layout b'.
Proof.
  intros Hf Hf' Hid Hdens Hrest Hfs Hn [Lids Lnext Lothers Ldens Lrest Lfirst].
  rewrite Hf in *; simpl in *.
  pose proof (Forall2_length_eq _ _ _ Hfs) as Hlen.
  constructor; rewrite Hf'; simpl.
  - rewrite Hlen, Hid; injection Lids as -> <-; f_equal.
    apply Forall2_map_eq.
    eapply Forall2_impl; [|exact Hfs].
    unfold attributes; intros g g' [= -> _ _ _ _ _ _]; reflexivity.
  - rewrite Hn, Lnext, Hlen; reflexivity.
  - eapply Forall2_keeps_Forall; [|exact Hfs|exact Lothers].
    unfold attributes, isDefault; intros g g' [= _ -> -> -> -> _ _]; auto.
  - inversion Ldens as [|? ? Hd0 Hds]; subst; constructor; [congruence|].
    eapply Forall2_keeps_Forall; [|exact Hfs|exact Hds].
    unfold attributes; intros g g' [= _ _ _ _ _ -> _]; auto.
  - inversion Lrest as [|? ? Hr0 Hrs]; subst; constructor.
    + destruct Hr0 as (x & z & Hr0); exists x, z; congruence.
    + eapply Forall2_keeps_Forall; [|exact Hfs|exact Hrs].
      unfold attributes, restsAt; intros g g' [= _ _ _ _ _ _ ->]; auto.
  - destruct Lfirst as (f0 & fs0 & [= <- <-] & Hr0).
    exists f', fs'; split; [reflexivity | congruence].
Qed.

Lemma layout_attributes (b b' : Barge.t) :
  Forall2 (fun g g' => attributes g' = attributes g) (Barge.floats b) (Barge.floats b') ->
  Barge.nextFloatId b' = Barge.nextFloatId b ->
  layout b -> layout b'.
Proof.
  intros Hfs Hn L.
  destruct (layout_first b L) as (f & fs & Hf & _).
  rewrite Hf in Hfs; inversion Hfs as [|? f' ? fs' Hhead Htail E1 E2]; subst.
  unfold attributes in Hhead; injection Hhead as Hid _ _ _ _ Hdens Hrest.
  symmetry in E2.
  exact (layout_transfer b b' f f' fs fs' Hf E2 Hid Hdens Hrest Htail Hn L).
Qed.

Lemma layout_constructed : layout constructed.
Proof.
  rewrite constructed_eq; constructor; simpl.
  - reflexivity.
  - reflexivity.
  - constructor.
  - repeat constructor.
  - repeat constructor; exists 0, 0; reflexivity.
  - exists defaultFloat, []; split; reflexivity.
Qed.

Lemma layout_addFloat (b : Barge.t) : layout b -> layout (fst (Barge.addFloat b)).
Proof.
  intros [Lids Lnext Lothers Ldens Lrest Lfirst].
  pose proof (addFloat_barge b) as Hb; simpl in Hb.
  pose proof (addFloat_id b) as Hid.
  destruct (addFloat_placement b) as (Hy & Hr & Hw & Hh & Hd & Hg & Hdens).
  destruct Lfirst as (f & fs & Hf & Hr0).
  set (float := snd (Barge.addFloat b)) in *.
  constructor; rewrite Hb; cbn [Barge.floats Barge.nextFloatId].
  - rewrite map_app, length_app, Nat.add_1_r, seq_S, Lids; simpl; f_equal.
    rewrite Hid, Lnext; reflexivity.
  - rewrite length_app, Nat.add_1_r, Lnext; reflexivity.
  - rewrite Hf in *; simpl in *.
    apply Forall_app; split; [exact Lothers|].
    repeat constructor; assumption.
  - apply Forall_app; split; [exact Ldens | repeat constructor; exact Hdens].
  - apply Forall_app; split; [exact Lrest|].
    constructor; [|constructor].
    exists (vx (Float.position float)), (vz (Float.position float)).
    rewrite Hr; f_equal.
    destruct (Float.position float) as [x y z]; simpl in *; f_equal.
    rewrite Hy; unfold Float.calculateDraft, defaultRestY.
    fold float; rewrite Hw, Hh, Hd, Hg, Hdens; reflexivity.
  - exists f, (fs ++ [float]); rewrite Hf; split; [reflexivity | exact Hr0].
Qed.

Lemma layout_perform (a : Action) (b b' : Barge.t) :
  Forall hasRest (Barge.floats b) ->
  layout b -> perform a b = Some b' -> layout b'.
Proof.
  intros Hrest L; destruct a as [| | |i x z|input]; simpl.
  - intros H; destruct (update_preserves _ _ H) as (Hfs & _ & Hn).
    eapply layout_attributes; eassumption.
  - intros [= <-]; now apply layout_addFloat.
  - unfold Barge.addItem; destruct (Barge.floats b) eqn:Hf; simpl; [discriminate|].
    intros [= <-]; eapply layout_attributes; [| |exact L]; simpl.
    + apply Forall2_same_attributes.
    + reflexivity.
  - unfold Barge.moveItem.
    destruct (i <? length (Barge.items b))%nat; [|intros [= <-]; exact L].
    destruct (Barge.writeItem b i x z) as [written|] eqn:Hw; simpl; [|discriminate].
    destruct (writeItem_preserves _ _ _ _ _ Hw) as (Hf & _ & Hn).
    intros H; destruct (update_preserves _ _ H) as (Hfs & _ & Hn').
    eapply layout_attributes; [exact Hfs | exact Hn'|].
    eapply layout_attributes; [| exact Hn | exact L].
    rewrite Hf; apply Forall2_same_attributes.
  - destruct (layout_first b L) as (f & fs & Hf & _).
    destruct (updateFloatProperties_edits b input f fs Hf Hrest)
      as (b1 & f' & fs' & Hu & Hfl & Ha & Ho & _ & Hn).
    rewrite Hu; intros [= <-].
    unfold attributes in Ha; injection Ha as Hid _ _ _ _ Hdens Hr.
    exact (layout_transfer b b1 f f' fs fs' Hf Hfl Hid Hdens Hr Ho Hn L).
Qed.

Lemma reachable_layout (b : Barge.t) : reachable b -> layout b.
Proof.
  induction 1 as [b Hnew | a b b' Hb IH Hstep].
  - rewrite new_constructed in Hnew; injection Hnew as <-; exact layout_constructed.
  - eapply layout_perform; [|exact IH|exact Hstep].
    exact (inv_rest b (reachable_invariant b Hb)).
Qed.

(** X10.  On every barge that the application reaches the pontoons carry
    the identifiers 1, 2, ..., n in the order of the list, and the next
    identifier is n + 1: no action reorders, renumbers or removes a
    pontoon. *)
Theorem reachable_identifiers (b : Barge.t) :
  reachable b ->
  map Float.id (Barge.floats b) = seq 1 (length (Barge.floats b))
  /\ Barge.nextFloatId b = S (length (Barge.floats b)).
Proof.
  intros Hb; destruct (reachable_layout b Hb); auto.
Qed.

(** The constructed barge with a second pontoon has identifiers 1, 2. *)
Lemma reachable_identifiers_witness :
  map Float.id (Barge.floats (fst (Barge.addFloat constructed))) = [1; 2]%nat
  /\ Barge.nextFloatId (fst (Barge.addFloat constructed)) = 3%nat.
Proof.
  destruct (reachable_identifiers (fst (Barge.addFloat constructed))) as (Hids & Hn).
  { apply (reachable_step AddNewFloat constructed); [|reflexivity].
    apply reachable_new; exact new_constructed. }
  split; [rewrite Hids | rewrite Hn]; reflexivity.
Defined.

(** X11.  Only pontoon 0 can be edited: on every barge that the
    application reaches all other pontoons are 20 wide, 7 high and 10
    deep with weight 20000, and every pontoon has water density 62.4. *)
Theorem reachable_defaults (b : Barge.t) :
  reachable b ->
  Forall isDefault (tl (Barge.floats b))
  /\ Forall (fun f => Float.waterDensity f = 62.4) (Barge.floats b).
Proof.
  intros Hb; destruct (reachable_layout b Hb); auto.
Qed.

(** After a second pontoon has been added and the panel has made
    pontoon 0 narrow, if the handler returns a barge then its second
    pontoon is still a default one. *)
Lemma reachable_defaults_witness :
  exists b' : Barge.t,
    updateFloatProperties (fst (Barge.addFloat constructed)) narrowInput = Some b'
    /\ Forall isDefault (tl (Barge.floats b')).
Proof.
  assert (H1 : reachable (fst (Barge.addFloat constructed))).
  { apply (reachable_step AddNewFloat constructed); [|reflexivity].
    apply reachable_new; exact new_constructed. }
  destruct (perform_total (EditFloat narrowInput) _ (reachable_invariant _ H1))
    as [b' Hb'].
  exists b'; split; [exact Hb'|].
  apply (reachable_defaults b').
  apply (reachable_step (EditFloat narrowInput) _ b' H1 Hb').
Defined.

(** X12.  The rest positions never follow an edit: on every barge that
    the application reaches the rest position of pontoon 0 is
    (0, defaultRestY, 0) and every pontoon rests at the height
    defaultRestY = -(20000 / 62.4) / (20 x 10) + 7 / 2 of the default
    geometry, whatever width, depth, height, weight or position the panel
    has given to pontoon 0. *)
Theorem reachable_rest_positions (b : Barge.t) :
  reachable b ->
  (exists (f : Float.t) (fs : list Float.t),
     Barge.floats b = f :: fs
     /\ Float.restPosition f = Some (mkVector3 0 defaultRestY 0))
  /\ Forall (restsAt defaultRestY) (Barge.floats b).
Proof.
  intros Hb; destruct (reachable_layout b Hb); auto.
Qed.

(** Once the panel has made pontoon 0 one unit wide, its rest position
    is still that of the default geometry. *)
Lemma reachable_rest_positions_witness :
  exists (b' : Barge.t) (f : Float.t) (fs : list Float.t),
    updateFloatProperties constructed narrowInput = Some b'
    /\ Barge.floats b' = f :: fs
    /\ Float.restPosition f = Some (mkVector3 0 defaultRestY 0).
Proof.
  assert (H0 : reachable constructed) by (apply reachable_new; exact new_constructed).
  destruct (perform_total (EditFloat narrowInput) _ (reachable_invariant _ H0))
    as [b' Hb'].
  destruct (reachable_rest_positions b') as ((f & fs & Hf & Hr) & _).
  { apply (reachable_step (EditFloat narrowInput) _ b' H0 Hb'). }
  exists b', f, fs; auto.
Defined.

(** ** The pontoons as a rigid body *)

Lemma tiltFloat_placed (b : Barge.t) (f f' : Float.t) :
  Barge.tiltFloat b f = Some f' ->
  exists rest : Vector3,
    Float.restPosition f = Some rest
    /\ Float.restPosition f' = Some rest
    /\ Float.position f'
       = placed (Barge.centerFlotation b) (Barge.tiltX b) (Barge.tiltZ b) rest.
Proof.
  intros Hf.
  destruct (tiltFloat_placed_hasRest _ _ _ Hf) as [rest Hr'].
  pose proof (tiltFloat_keeps _ _ _ Hf) as (_ & _ & _ & _ & _ & _ & Hr & _).
  rewrite Hr' in Hr; symmetry in Hr.
  destruct (tiltFloat_rotation _ _ _ _ Hr Hf) as (Hp & _).
  exists rest; auto.
Qed.

(** The pontoons that [update] leaves, each with where it stands. *)
Lemma update_floats_placed (b b' : Barge.t) :
  Barge.update b = Some b' ->
  Forall
    (fun f' =>
       forall rest : Vector3,
         Float.restPosition f' = Some rest ->
         Float.position f'
         = placed (Barge.centerFlotation b') (Barge.tiltX b') (Barge.tiltZ b') rest)
    (Barge.floats b').
Proof.
  intros H; destruct (update_unfold _ _ H) as (fs & its & Hfs & _ & ->); simpl.
  apply (Forall2_fixed _
           (fun _ f' =>
              forall rest : Vector3,
                Float.restPosition f' = Some rest ->
                Float.position f'
                = placed (Barge.centerFlotation (tilted b)) (Barge.tiltX (tilted b))
                         (Barge.tiltZ (tilted b)) rest) _ _)
    with (2 := forEach_Forall2 _ _ _ Hfs).
  intros f f' Hf rest Hrest.
  destruct (tiltFloat_placed _ _ _ Hf) as (r & _ & Hr & Hp); congruence.
Qed.

(** X13.  After [update] every pontoon stands where the rotation puts
    its rest position, for the center and the angles that the barge then
    has: its position before the call, and so whatever the property panel
    or an earlier tilt had written there, is overwritten; its rest
    position is kept. *)
Theorem update_places_from_rest (b b' : Barge.t) :
  Barge.update b = Some b' ->
  Forall2
    (fun f f' =>
       exists rest : Vector3,
         Float.restPosition f = Some rest
         /\ Float.restPosition f' = Some rest
         /\ Float.position f'
            = placed (Barge.centerFlotation b') (Barge.tiltX b') (Barge.tiltZ b') rest)
    (Barge.floats b) (Barge.floats b').
Proof.
  intros H; destruct (update_unfold _ _ H) as (fs & its & Hfs & _ & ->); simpl.
  eapply Forall2_impl; [|apply forEach_Forall2, Hfs].
  intros f f' Hf; simpl in Hf.
  exact (tiltFloat_placed _ _ _ Hf).
Qed.

(** A pontoon that the panel has moved to x = 5 is back on its rest
    position after [update], the item being over the center. *)
Lemma update_places_from_rest_witness :
  exists (b' : Barge.t) (f' : Float.t),
    Barge.update
      (Barge.mk [Float.setPosition defaultFloat 5 0 0] [itemAt 5 0] 2
                (mkVector3 0 0 0) 0 0)
    = Some b'
    /\ Barge.floats b' = [f']
    /\ Float.position f'
       = placed (Barge.centerFlotation b') (Barge.tiltX b') (Barge.tiltZ b')
                (mkVector3 0 defaultRestY 0).
Proof.
  set (b := Barge.mk [Float.setPosition defaultFloat 5 0 0] [itemAt 5 0] 2
                     (mkVector3 0 0 0) 0 0).
  destruct (update_total b) as [b' Hb'].
  { discriminate. }
  { repeat constructor; eexists; reflexivity. }
  pose proof (update_places_from_rest b b' Hb') as Hall.
  simpl in Hall.
  inversion Hall as [|f f' l1 l2 (rest & Hr & _ & Hp) Hnil E1 E2].
  inversion Hnil; subst.
  injection Hr as <-.
  exists b', f'; auto.
Defined.

Lemma rotateAboutZ_distance (theta : R) (p q : Vector3) :
  distance2 (rotateAboutZ theta p) (rotateAboutZ theta q) = distance2 p q.
Proof.
  unfold distance2, rotateAboutZ; cbn [vx vy vz].
  pose proof (sin2_cos2 theta) as H; unfold Rsqr in H.
  replace ((vx p * cos theta - vy p * sin theta
            - (vx q * cos theta - vy q * sin theta)) ^ 2
           + (vx p * sin theta + vy p * cos theta
              - (vx q * sin theta + vy q * cos theta)) ^ 2)
    with (((vx p - vx q) ^ 2 + (vy p - vy q) ^ 2)
          * (sin theta * sin theta + cos theta * cos theta)) by ring.
  rewrite H; ring.
Qed.

Lemma rotateAboutX_distance (theta : R) (p q : Vector3) :
  distance2 (rotateAboutX theta p) (rotateAboutX theta q) = distance2 p q.
Proof.
  unfold distance2, rotateAboutX; cbn [vx vy vz].
  pose proof (sin2_cos2 theta) as H; unfold Rsqr in H.
  rewrite !Rplus_assoc.
  replace ((vy p * cos theta - vz p * sin theta
            - (vy q * cos theta - vz q * sin theta)) ^ 2
           + (vy p * sin theta + vz p * cos theta
              - (vy q * sin theta + vz q * cos theta)) ^ 2)
    with (((vy p - vy q) ^ 2 + (vz p - vz q) ^ 2)
          * (sin theta * sin theta + cos theta * cos theta)) by ring.
  rewrite H; ring.
Qed.

Lemma placed_distance (center : Vector3) (tiltX tiltZ : R) (p q : Vector3) :
  distance2 (placed center tiltX tiltZ p) (placed center tiltX tiltZ q)
  = distance2 p q.
Proof.
  unfold placed.
  transitivity (distance2 (rotateAboutX (- tiltX) (rotateAboutZ (- tiltZ) (vsub p center)))
                          (rotateAboutX (- tiltX) (rotateAboutZ (- tiltZ) (vsub q center)))).
  { unfold distance2, vadd; simpl; ring. }
  rewrite rotateAboutX_distance, rotateAboutZ_distance.
  unfold distance2, vsub; simpl; ring.
Qed.

Lemma placed_center_distance (center : Vector3) (tiltX tiltZ : R) (p : Vector3) :
  distance2 (placed center tiltX tiltZ p) center = distance2 p center.
Proof.
  assert (E : placed center tiltX tiltZ center = center).
  { unfold placed, vsub, vadd, rotateAboutX, rotateAboutZ.
    destruct center as [cx cy cz]; simpl; f_equal; ring. }
  transitivity (distance2 (placed center tiltX tiltZ p)
                          (placed center tiltX tiltZ center)).
  - rewrite E; reflexivity.
  - apply placed_distance.
Qed.

(** X14.  [update] moves the pontoons as one rigid body: after the call
    the distance between any two pontoons is the distance between their
    rest positions, and the distance of a pontoon from the center of
    flotation is that of its rest position, whatever the angles. *)
Theorem update_rigid (b b' : Barge.t) (f g : Float.t) (restF restG : Vector3) :
  Barge.update b = Some b' ->
  In f (Barge.floats b') -> In g (Barge.floats b') ->
  Float.restPosition f = Some restF -> Float.restPosition g = Some restG ->
  distance2 (Float.position f) (Float.position g) = distance2 restF restG
  /\ distance2 (Float.position f) (Barge.centerFlotation b')
     = distance2 restF (Barge.centerFlotation b').
Proof.
  intros H Hf Hg Hrf Hrg.
  pose proof (update_floats_placed b b' H) as Hq.
  rewrite Forall_forall in Hq.
  assert (Hplaced : forall h rest,
             In h (Barge.floats b') -> Float.restPosition h = Some rest ->
             Float.position h
             = placed (Barge.centerFlotation b') (Barge.tiltX b') (Barge.tiltZ b') rest).
  { intros h rest Hin Hr; now apply Hq. }
  rewrite (Hplaced f restF Hf Hrf), (Hplaced g restG Hg Hrg).
  split; [apply placed_distance | apply placed_center_distance].
Qed.

(** After the item has been dragged to x = 9 on a barge of two
    pontoons, the tilted pontoons are still 20 apart. *)
Lemma update_rigid_witness :
  exists (b' : Barge.t) (f g : Float.t),
    Barge.moveItem
      (Barge.set_items (addFloats 2 Barge.empty) [itemAt 0 0]) 0 10 0 = Some b'
    /\ Barge.floats b' = [f; g]
    /\ distance2 (Float.position f) (Float.position g) = 20 ^ 2.
Proof.
  set (b := Barge.set_items (addFloats 2 Barge.empty) [itemAt 0 0]).
  assert (Hrest : Forall hasRest (Barge.floats b)).
  { repeat constructor; eexists; reflexivity. }
  destruct (Barge.floats b) as [|f0 fs0] eqn:Hfl; [discriminate|].
  rewrite <- Hfl in Hrest.
  destruct (moveItem_writes b 0 10 0 f0 fs0 Hfl Hrest)
    as (written & b' & _ & _ & Hwf & Hu & Hm & _).
  { simpl; lia. }
  destruct (update_preserves _ _ Hu) as (Hall & _).
  rewrite Hwf in Hall; unfold b in Hall; simpl in Hall.
  inversion Hall as [|f1 f l1 l2 Ha1 Htail E1 E2].
  inversion Htail as [|g1 g l3 l4 Ha2 Hnil E3 E4].
  inversion Hnil as [E5 E6|].
  rewrite <- E6 in E4; rewrite <- E4 in E2; clear E1 E3 E4 E5 E6.
  unfold attributes in Ha1, Ha2.
  injection Ha1 as _ _ _ _ _ _ Hr1'; injection Ha2 as _ _ _ _ _ _ Hr2'.
  simpl in Hr1', Hr2'.
  exists b', f, g; split; [exact Hm|]; split; [auto|].
  assert (Hf : In f (Barge.floats b')) by (rewrite <- E2; simpl; auto).
  assert (Hg : In g (Barge.floats b')) by (rewrite <- E2; simpl; auto).
  destruct (update_rigid written b' f g _ _ Hu Hf Hg Hr1' Hr2') as (Hd & _).
  rewrite Hd; unfold distance2, Float.calculateDraft; simpl; field; lra.
Defined.

(** ** More on [moveItem] *)

Lemma nth_error_replace_other {A : Type} (n m : nat) (x : A) (xs : list A) :
  n <> m -> nth_error (Barge.replace n x xs) m = nth_error xs m.
Proof.
  revert n m; induction xs as [|y xs IH]; intros [|n] [|m] H; simpl; auto.
  congruence.
Qed.

(** X15.  [moveItem] moves one item only: whenever it returns, for an
    index in range or not, every other item has the x and z it had, the
    number of items is the same, and the attributes of the pontoons are
    untouched. *)
Theorem moveItem_frame (b b' : Barge.t) (itemIndex : nat) (x z : R) :
  Barge.moveItem b itemIndex x z = Some b' ->
  (forall (j : nat) (other : Item.t),
     j <> itemIndex -> nth_error (Barge.items b) j = Some other ->
     exists other' : Item.t,
       nth_error (Barge.items b') j = Some other'
       /\ vx (Item.position other') = vx (Item.position other)
       /\ vz (Item.position other') = vz (Item.position other))
  /\ length (Barge.items b') = length (Barge.items b)
  /\ Forall2 (fun f f' => attributes f' = attributes f) (Barge.floats b) (Barge.floats b').
Proof.
  unfold Barge.moveItem.
  destruct (itemIndex <? length (Barge.items b))%nat.
  - destruct (Barge.writeItem b itemIndex x z) as [written|] eqn:Hw; simpl; [|discriminate].
    intros Hu.
    destruct (writeItem_preserves _ _ _ _ _ Hw) as (Hf & Hl & _).
    destruct (update_preserves _ _ Hu) as (Hfs & Hits & _).
    pose proof (update_items_sideways _ _ Hu) as Hkeep.
    rewrite Hf in Hfs; rewrite Hl in Hits.
    split; [|split; assumption].
    intros j other Hj Hother.
    unfold Barge.writeItem in Hw.
    destruct (Barge.floats b) as [|f fs]; [discriminate|].
    destruct (nth_error (Barge.items b) itemIndex) as [item|]; [|discriminate].
    injection Hw as <-; simpl in Hkeep.
    destruct (Forall2_nth_error _ _ _ j other Hkeep) as (other' & Hn & Hx & Hz).
    { rewrite nth_error_replace_other by congruence; exact Hother. }
    exists other'; auto.
  - intros [= <-]; split; [|split].
    + intros j other _ Hother; exists other; auto.
    + reflexivity.
    + apply Forall2_same_attributes.
Qed.

(** With two items on the constructed barge, dragging item 0 leaves
    item 1 at x = 3, z = 1. *)
Lemma moveItem_frame_witness :
  exists (b' : Barge.t) (other' : Item.t),
    Barge.moveItem (Barge.set_items constructed [itemAt 0 0; itemAt 3 1]) 0 7 2
    = Some b'
    /\ nth_error (Barge.items b') 1 = Some other'
    /\ vx (Item.position other') = 3 /\ vz (Item.position other') = 1.
Proof.
  set (b := Barge.set_items constructed [itemAt 0 0; itemAt 3 1]).
  destruct (moveItem_writes b 0 7 2 defaultFloat [] constructed_floats
              constructed_hasRest) as (_ & b' & _ & _ & _ & _ & Hm & _).
  { simpl; lia. }
  destruct (moveItem_frame b b' 0 7 2 Hm) as (Hother & _).
  destruct (Hother 1%nat (itemAt 3 1)) as (other' & Hn & Hx & Hz);
    [lia | reflexivity |].
  exists b', other'; auto.
Defined.

Lemma clamp_idempotent (half v : R) :
  Rmax (- half) (Rmin half (Rmax (- half) (Rmin half v)))
  = Rmax (- half) (Rmin half v).
Proof.
  unfold Rmax, Rmin; repeat (destruct (Rle_dec _ _)); lra.
Qed.

(** X16.  Moving an item to where [moveItem] has just put it leaves it
    there: the clamp applied to its own result gives that result again,
    whatever the size of pontoon 0, and [update] does not change the
    width or depth of pontoon 0 in between. *)
Theorem moveItem_again (b b1 : Barge.t) (itemIndex : nat) (x z : R)
  (item1 : Item.t) :
  Barge.floats b <> [] -> Forall hasRest (Barge.floats b) ->
  (itemIndex < length (Barge.items b))%nat ->
  Barge.moveItem b itemIndex x z = Some b1 ->
  nth_error (Barge.items b1) itemIndex = Some item1 ->
  exists (b2 : Barge.t) (item2 : Item.t),
    Barge.moveItem b1 itemIndex (vx (Item.position item1)) (vz (Item.position item1))
    = Some b2
    /\ nth_error (Barge.items b2) itemIndex = Some item2
    /\ vx (Item.position item2) = vx (Item.position item1)
    /\ vz (Item.position item2) = vz (Item.position item1).
Proof.
  intros Hne Hrest Hlt Hm Hn.
  destruct (Barge.floats b) as [|f fs] eqn:Hf; [congruence|].
  rewrite <- Hf in Hrest.
  destruct (moveItem_writes b itemIndex x z f fs Hf Hrest Hlt)
    as (written & b1' & item1' & Hwr & Hwf & Hu & Hm' & Hn' & Hx & Hz).
  rewrite Hm in Hm'; injection Hm' as <-.
  rewrite Hn in Hn'; injection Hn' as <-.
  destruct (update_preserves _ _ Hu) as (Hfs & Hlen & _).
  destruct (writeItem_preserves _ _ _ _ _ Hwr) as (_ & Hlw & _).
  rewrite Hlw in Hlen; rewrite Hwf, Hf in Hfs.
  inversion Hfs as [|? f1 ? fs1 Hhead Htail E1 E2]; subst.
  unfold attributes in Hhead; injection Hhead as _ Hw _ Hd _ _ _.
  assert (Hrest1 : Forall hasRest (Barge.floats b1)).
  { rewrite Hf in Hrest.
    eapply Forall2_keeps_Forall; [|exact Hfs|exact Hrest].
    intros g g'; apply attributes_hasRest. }
  symmetry in E2.
  destruct (moveItem_writes b1 itemIndex (vx (Item.position item1))
              (vz (Item.position item1)) f1 fs1 E2 Hrest1)
    as (_ & b2 & item2 & _ & _ & _ & Hm2 & Hn2 & Hx2 & Hz2).
  { rewrite Hlen; exact Hlt. }
  exists b2, item2; repeat split; auto.
  - rewrite Hx2, Hx, Hw; apply clamp_idempotent.
  - rewrite Hz2, Hz, Hd; apply clamp_idempotent.
Qed.

(** The item dragged to x = 25, z = -7 on the constructed barge stops at
    x = 9, z = -4; asked to go to x = 9, z = -4 it stays. *)
Lemma moveItem_again_witness :
  exists (b1 b2 : Barge.t) (item1 item2 : Item.t),
    Barge.moveItem constructed 0 25 (-7) = Some b1
    /\ nth_error (Barge.items b1) 0 = Some item1
    /\ Barge.moveItem b1 0 (vx (Item.position item1)) (vz (Item.position item1))
       = Some b2
    /\ nth_error (Barge.items b2) 0 = Some item2
    /\ vx (Item.position item2) = vx (Item.position item1)
    /\ vz (Item.position item2) = vz (Item.position item1).
Proof.
  destruct (moveItem_writes constructed 0 25 (-7) defaultFloat []
              constructed_floats constructed_hasRest)
    as (_ & b1 & item1 & _ & _ & _ & Hm & Hn & _).
  { rewrite constructed_items; simpl; lia. }
  assert (Hne : Barge.floats constructed <> [])
    by (rewrite constructed_floats; discriminate).
  assert (Hlt : (0 < length (Barge.items constructed))%nat)
    by (rewrite constructed_items; simpl; lia).
  destruct (moveItem_again constructed b1 0 25 (-7) item1 Hne constructed_hasRest
              Hlt Hm Hn)
    as (b2 & item2 & Hm2 & Hn2 & Hx & Hz).
  exists b1, b2, item1, item2; auto 10.
Defined.

(** X17.  On a single pontoon whose current position is at x = 0, z = 0
    and which is between 2 and 22 wide and between 2 and 12 deep, the
    angles after [moveItem(0, x, z)] never exceed [maxTilt] = 0.05 in
    absolute value, wherever the item is asked to go: they are bounded by
    ((width / 2 - 1) / 10) * 0.05 about z and ((depth / 2 - 1) / 5) * 0.05
    about x. *)
Theorem moveItem_tilt_bounded (b b' : Barge.t) (f : Float.t) (item0 : Item.t)
  (others : list Item.t) (rest : Vector3) (x z : R) :
  Barge.floats b = [f] -> Float.restPosition f = Some rest ->
  vx (Float.position f) = 0 -> vz (Float.position f) = 0 ->
  2 <= Float.width f <= 22 -> 2 <= Float.depth f <= 12 ->
  Barge.items b = item0 :: others ->
  Barge.moveItem b 0 x z = Some b' ->
  Rabs (Barge.tiltZ b') <= ((Float.width f / 2 - 1) / 10) * 0.05
  /\ Rabs (Barge.tiltX b') <= ((Float.depth f / 2 - 1) / 5) * 0.05
  /\ Rabs (Barge.tiltZ b') <= Barge.maxTilt
  /\ Rabs (Barge.tiltX b') <= Barge.maxTilt.
Proof.
  intros Hf Hr Hx Hz Hw Hd Hi Hm.
  unfold Barge.moveItem in Hm; rewrite Hi in Hm; simpl in Hm.
  unfold Barge.writeItem in Hm; rewrite Hf, Hi in Hm; simpl in Hm.
  match type of Hm with
  | Barge.update (Barge.set_items b (?i :: others)) = _ =>
      destruct (update_single (Barge.set_items b (i :: others)) b' f i others rest
                  Hf eq_refl Hr ltac:(unfold footprintArea; nra) Hm)
        as (_ & Htx & Htz & _)
  end.
  simpl in Htx, Htz; rewrite Hx in Htz; rewrite Hz in Htx.
  pose proof (clamp_within (Float.width f / 2 - 1) x ltac:(lra)) as Hcx.
  pose proof (clamp_within (Float.depth f / 2 - 1) z ltac:(lra)) as Hcz.
  unfold withinDeck in Hcx, Hcz.
  assert (H1 : Rabs (Barge.tiltZ b') <= (Float.width f / 2 - 1) / 10 * 0.05).
  { rewrite Htz; apply Rabs_le; lra. }
  assert (H2 : Rabs (Barge.tiltX b') <= (Float.depth f / 2 - 1) / 5 * 0.05).
  { rewrite Htx; apply Rabs_le; lra. }
  unfold Barge.maxTilt; repeat split; lra.
Qed.

(** On the constructed barge no request tilts the barge by more than
    0.045 about z and 0.04 about x. *)
Lemma moveItem_tilt_bounded_witness :
  exists b' : Barge.t,
    Barge.moveItem constructed 0 1000 (-1000) = Some b'
    /\ Rabs (Barge.tiltZ b') <= 0.045 /\ Rabs (Barge.tiltX b') <= 0.04.
Proof.
  destruct (moveItem_writes constructed 0 1000 (-1000) defaultFloat []
              constructed_floats constructed_hasRest)
    as (_ & b' & _ & _ & _ & _ & Hm & _).
  { rewrite constructed_items; simpl; lia. }
  exists b'; split; [exact Hm|].
  destruct (moveItem_tilt_bounded constructed b' defaultFloat (itemAt 0 0) []
              (mkVector3 0 defaultRestY 0) 1000 (-1000) constructed_floats)
    as (Hz & Hx & _); try reflexivity; try (simpl; lra).
  - exact constructed_items.
  - exact Hm.
  - simpl in Hz, Hx; split; lra.
Defined.

(** ** Draft and weight *)

(** X18.  The draft balances the weight: for a pontoon with a footprint
    and a positive water density, the submerged volume (draft x width x
    depth) times the density is the weight; and of two such pontoons with
    the same footprint and density the heavier one has the larger draft. *)
Theorem calculateDraft_balances (f g : Float.t) :
  0 < Float.waterDensity f -> 0 < Float.width f -> 0 < Float.depth f ->
  Float.calculateDraft f * (Float.width f * Float.depth f) * Float.waterDensity f
  = Float.weight f
  /\ (Float.waterDensity g = Float.waterDensity f ->
      Float.width g = Float.width f -> Float.depth g = Float.depth f ->
      Float.weight f <= Float.weight g ->
      Float.calculateDraft f <= Float.calculateDraft g).
Proof.
  intros Hd Hw Hz; unfold Float.calculateDraft; split.
  - field; lra.
  - intros -> -> -> Hle.
    assert (Hpos : 0 < / Float.waterDensity f * / (Float.width f * Float.depth f)).
    { apply Rmult_lt_0_compat; apply Rinv_0_lt_compat; [lra | nra]. }
    unfold Rdiv; rewrite !Rmult_assoc.
    apply Rmult_le_compat_r; lra.
Qed.

(** The default pontoon displaces its 20000, and a pontoon of 30000 on
    the same footprint lies deeper. *)
Lemma calculateDraft_balances_witness :
  Float.calculateDraft (Float.new 1) * (20 * 10) * 62.4 = 20000
  /\ Float.calculateDraft (Float.new 1)
     <= Float.calculateDraft (Float.set_weight (Float.new 1) 30000).
Proof.
  destruct (calculateDraft_balances (Float.new 1)
              (Float.set_weight (Float.new 1) 30000))
    as (Hbal & Hmono); try (simpl; lra).
  split; [exact Hbal|].
  apply Hmono; try reflexivity; simpl; lra.
Defined.

(** ** The camera *)

(** X19.  The wheel does not undo itself: scrolling out by one notch and
    back in by one notch, in either order, leaves the camera on the same
    ray from the origin at 1.02 x 0.98 = 0.9996 of its distance. *)
Theorem zoom_out_in (position : Vector3) (out into : R) :
  0 < out -> into <= 0 ->
  zoom (zoom position out) into
  = mkVector3 (0.9996 * vx position) (0.9996 * vy position) (0.9996 * vz position)
  /\ zoom (zoom position into) out = zoom (zoom position out) into.
Proof.
  intros Hout Hin; unfold zoom; simpl.
  destruct (Rlt_dec 0 out); [|lra].
  destruct (Rlt_dec 0 into); [lra|].
  split; f_equal; lra.
Qed.

(** From the initial camera position (25, 15, 25). *)
Lemma zoom_out_in_witness :
  zoom (zoom (mkVector3 25 15 25) 100) (-100)
  = mkVector3 (0.9996 * 25) (0.9996 * 15) (0.9996 * 25).
Proof.
  apply (zoom_out_in (mkVector3 25 15 25) 100 (-100)); lra.
Defined.

Lemma polar_angle_clamped (v : R) :
  0.1 <= Rmax 0.1 (Rmin (PI - 0.1) v) <= PI - 0.1.
Proof.
  pose proof PI2_1; unfold Rmax, Rmin.
  destruct (Rle_dec (PI - 0.1) v); destruct (Rle_dec _ _); lra.
Qed.

(** X20.  Orbiting keeps the camera at its distance from the origin:
    whatever the mouse displacement, and whatever [Math.atan2] returns,
    the new position is as far from the origin as the old one, provided
    the camera is not at the origin. *)
Theorem orbit_keeps_distance (atan2 : R -> R -> R) (position : Vector3)
  (deltaX deltaY : R) :
  0 < distance2 position (mkVector3 0 0 0) ->
  distance2 (orbit atan2 position deltaX deltaY) (mkVector3 0 0 0)
  = distance2 position (mkVector3 0 0 0).
Proof.
  intros Hpos; unfold orbit, distance2 in *; cbn [vx vy vz] in *.
  rewrite !Rminus_0_r in *.
  set (s := vx position ^ 2 + vy position ^ 2 + vz position ^ 2) in *.
  set (newPhi := Rmax 0.1 (Rmin (PI - 0.1) (acos (vy position / sqrt s) - deltaY * 0.01))).
  set (newTheta := atan2 (vz position) (vx position) + deltaX * 0.01).
  pose proof (sqrt_sqrt s ltac:(lra)) as Hr.
  pose proof (sin2_cos2 newPhi) as Hp; unfold Rsqr in Hp.
  pose proof (sin2_cos2 newTheta) as Ht; unfold Rsqr in Ht.
  replace ((sqrt s * sin newPhi * cos newTheta) ^ 2 + (sqrt s * cos newPhi) ^ 2
           + (sqrt s * sin newPhi * sin newTheta) ^ 2)
    with (sqrt s * sqrt s
          * (sin newPhi * sin newPhi
             * (sin newTheta * sin newTheta + cos newTheta * cos newTheta)
             + cos newPhi * cos newPhi)) by ring.
  rewrite Ht, Rmult_1_r, Hp, Hr; ring.
Qed.

(** From the initial camera position (25, 15, 25), at distance
    25^2 + 15^2 + 25^2 = 1475 squared, with the arc tangent of the
    standard library standing for [Math.atan2]. *)
Lemma orbit_keeps_distance_witness :
  distance2 (orbit (fun y x => atan (y / x)) (mkVector3 25 15 25) 40 (-30))
            (mkVector3 0 0 0)
  = 1475.
Proof.
  rewrite (orbit_keeps_distance (fun y x => atan (y / x)) (mkVector3 25 15 25) 40 (-30)).
  - unfold distance2; simpl; ring.
  - unfold distance2; simpl; lra.
Defined.

(** X21.  Orbiting never takes the camera over the poles: the polar
    angle is clamped to [0.1, pi - 0.1], so that the new height is at
    most cos(0.1) times the distance, in absolute value, and the camera
    never stands on the vertical axis through the origin. *)
Theorem orbit_avoids_poles (atan2 : R -> R -> R) (position : Vector3)
  (deltaX deltaY : R) :
  0 < distance2 position (mkVector3 0 0 0) ->
  let radius := sqrt (distance2 position (mkVector3 0 0 0)) in
  let position' := orbit atan2 position deltaX deltaY in
  - (radius * cos 0.1) <= vy position' <= radius * cos 0.1
  /\ 0 < vx position' ^ 2 + vz position' ^ 2.
Proof.
  intros Hpos radius position'; subst radius position'.
  unfold orbit, distance2 in *; cbn [vx vy vz] in *.
  rewrite !Rminus_0_r in *.
  set (s := vx position ^ 2 + vy position ^ 2 + vz position ^ 2) in *.
  set (newPhi := Rmax 0.1 (Rmin (PI - 0.1) (acos (vy position / sqrt s) - deltaY * 0.01))).
  set (newTheta := atan2 (vz position) (vx position) + deltaX * 0.01).
  pose proof (polar_angle_clamped (acos (vy position / sqrt s) - deltaY * 0.01))
    as (Hlo & Hhi); fold newPhi in Hlo, Hhi.
  pose proof PI2_1 as Hpi.
  assert (Hr : 0 < sqrt s) by (apply sqrt_lt_R0; exact Hpos).
  assert (Hc1 : cos newPhi <= cos 0.1) by (apply cos_decr_1; lra).
  assert (Hc2 : - cos 0.1 <= cos newPhi).
  { replace (- cos 0.1) with (cos (PI - 0.1)).
    - apply cos_decr_1; lra.
    - rewrite cos_minus, cos_PI, sin_PI; ring. }
  assert (Hs : 0 < sin newPhi) by (apply sin_gt_0; lra).
  split.
  - split; nra.
  - pose proof (sin2_cos2 newTheta) as Ht; unfold Rsqr in Ht.
    replace ((sqrt s * sin newPhi * cos newTheta) ^ 2
             + (sqrt s * sin newPhi * sin newTheta) ^ 2)
      with ((sqrt s * sin newPhi) * (sqrt s * sin newPhi)
            * (sin newTheta * sin newTheta + cos newTheta * cos newTheta)) by ring.
    rewrite Ht, Rmult_1_r.
    assert (0 < sqrt s * sin newPhi) by (apply Rmult_lt_0_compat; assumption).
    nra.
Qed.

(** From the initial camera position, dragging far up. *)
Lemma orbit_avoids_poles_witness :
  0 < vx (orbit (fun y x => atan (y / x)) (mkVector3 25 15 25) 0 100000) ^ 2
      + vz (orbit (fun y x => atan (y / x)) (mkVector3 25 15 25) 0 100000) ^ 2.
Proof.
  apply (orbit_avoids_poles (fun y x => atan (y / x)) (mkVector3 25 15 25) 0 100000).
  unfold distance2; simpl; lra.
Defined.

(** ** What the property panel changes *)

Lemma accepted_valid (r old : R) : 0 < r -> accepted (Some r) old = r.
Proof.
  intros H; simpl; destruct (Rlt_dec 0 r); [reflexivity | contradiction].
Qed.

(** X22.  A positive number typed into the panel is taken as it is, the
    length field into the width of pontoon 0, the width field into its
    depth, the height and weight fields into its height and weight; its
    identifier, water density and rest position are not touched. *)
Theorem updateFloatProperties_accepts (barge : Barge.t) (input : PanelInput)
  (float : Float.t) (others : list Float.t) :
  Barge.floats barge = float :: others ->
  Forall hasRest (Barge.floats barge) ->
  exists (barge' : Barge.t) (float' : Float.t) (others' : list Float.t),
    updateFloatProperties barge input = Some barge'
    /\ Barge.floats barge' = float' :: others'
    /\ (forall r, floatLength input = Some r -> 0 < r -> Float.width float' = r)
    /\ (forall r, floatWidth input = Some r -> 0 < r -> Float.depth float' = r)
    /\ (forall r, floatHeight input = Some r -> 0 < r -> Float.height float' = r)
    /\ (forall r, floatWeight input = Some r -> 0 < r -> Float.weight float' = r)
    /\ Float.id float' = Float.id float
    /\ Float.waterDensity float' = Float.waterDensity float
    /\ Float.restPosition float' = Float.restPosition float.
Proof.
  intros Hf Hrest.
  destruct (updateFloatProperties_edits barge input float others Hf Hrest)
    as (barge' & float' & others' & Hu & Hfl & Ha & _).
  unfold attributes in Ha; injection Ha as Hi Hw Hh Hd Hg Hr Hp.
  exists barge', float', others'.
  repeat match goal with |- _ /\ _ => split end; auto.
  - intros r E Hpos; rewrite Hw, E; now apply accepted_valid.
  - intros r E Hpos; rewrite Hd, E; now apply accepted_valid.
  - intros r E Hpos; rewrite Hh, E; now apply accepted_valid.
  - intros r E Hpos; rewrite Hg, E; now apply accepted_valid.
Qed.

(** The length 1 typed into the panel of the constructed barge makes
    pontoon 0 one unit wide and leaves its depth at 10. *)
Lemma updateFloatProperties_accepts_witness :
  exists (barge' : Barge.t) (float' : Float.t),
    updateFloatProperties constructed narrowInput = Some barge'
    /\ Barge.floats barge' = [float']
    /\ Float.width float' = 1 /\ Float.depth float' = 10.
Proof.
  destruct (updateFloatProperties_accepts constructed narrowInput defaultFloat []
              constructed_floats constructed_hasRest)
    as (barge' & float' & others' & Hu & Hfl & Hw & Hd & _).
  destruct (updateFloatProperties_edits constructed narrowInput defaultFloat []
              constructed_floats constructed_hasRest)
    as (barge2 & float2 & others2 & Hu2 & Hfl2 & _ & Ho & _).
  rewrite Hu in Hu2; injection Hu2 as <-.
  rewrite Hfl in Hfl2; injection Hfl2 as <- <-.
  inversion Ho; subst.
  exists barge', float'; repeat split; auto.
  - apply Hw; [reflexivity | lra].
  - apply Hd; [reflexivity | lra].
Defined.

Lemma set_width_same (f : Float.t) : Float.set_width f (Float.width f) = f.
Proof. destruct f; reflexivity. Qed.

Lemma set_depth_same (f : Float.t) : Float.set_depth f (Float.depth f) = f.
Proof. destruct f; reflexivity. Qed.

Lemma set_height_same (f : Float.t) : Float.set_height f (Float.height f) = f.
Proof. destruct f; reflexivity. Qed.

Lemma set_weight_same (f : Float.t) : Float.set_weight f (Float.weight f) = f.
Proof. destruct f; reflexivity. Qed.

Lemma editPositive_same (set : Float.t -> R -> Float.t) (get : Float.t -> R)
  (v : option R) (st : Float.t * bool) :
  (forall f, set f (get f) = f) ->
  accepted v (get (fst st)) = get (fst st) ->
  fst (editPositive set v st) = fst st.
Proof.
  intros Hset; destruct v as [r|]; simpl; [|reflexivity].
  destruct (Rlt_dec 0 r); [|reflexivity].
  intros ->; simpl; apply Hset.
Qed.

Lemma editPositive_weight_is (v : option R) (st : Float.t * bool) :
  fst (editPositive Float.set_weight v st)
  = Float.set_weight (fst st) (accepted v (Float.weight (fst st))).
Proof.
  destruct v as [r|]; simpl; [destruct (Rlt_dec 0 r)|]; simpl;
    auto using set_weight_same.
Qed.

Lemma editCoordinate_vx_same (v : option R) (f : Float.t) :
  (forall r, v = Some r -> r = vx (Float.position f)) ->
  editCoordinate set_vx v f = f.
Proof.
  destruct v as [r|]; simpl; [|reflexivity].
  intros H; rewrite (H r eq_refl); destruct f as [? ? ? ? ? ? [x y z] ? ?]; reflexivity.
Qed.

Lemma editCoordinate_vz_same (v : option R) (f : Float.t) :
  (forall r, v = Some r -> r = vz (Float.position f)) ->
  editCoordinate set_vz v f = f.
Proof.
  destruct v as [r|]; simpl; [|reflexivity].
  intros H; rewrite (H r eq_refl); destruct f as [? ? ? ? ? ? [x y z] ? ?]; reflexivity.
Qed.

(** [update] on a barge whose pontoon 0 has another weight and another
    height above the water. *)
Lemma update_reweighed (b b0 : Barge.t) (f f0 : Float.t) (others tail : list Float.t)
  (w y : R) :
  Barge.floats b = f :: others ->
  Barge.update b = Some b0 -> Barge.floats b0 = f0 :: tail ->
  Barge.update
    (Barge.calculateCenterFlotation
       (Barge.set_floats b
          (Float.set_position (Float.set_weight f w)
             (set_vy (Float.position f) y) :: others)))
  = Some (Barge.set_floats b0 (Float.set_weight f0 w :: tail)).
Proof.
  intros Hf H0 Hf0.
  set (e := Float.set_position (Float.set_weight f w) (set_vy (Float.position f) y)).
  set (b1 := Barge.calculateCenterFlotation (Barge.set_floats b (e :: others))).
  destruct (update_unfold _ _ H0) as (fs0 & its0 & Hfs0 & Hits0 & E0).
  assert (E : fs0 = f0 :: tail) by (rewrite E0 in Hf0; exact Hf0).
  subst fs0.
  assert (Hc : Barge.centerFlotation (tilted b1) = Barge.centerFlotation (tilted b)).
  { destruct (tilted_fields b1) as (_ & _ & _ & ->).
    destruct (tilted_fields b) as (_ & _ & _ & ->).
    unfold b1, Barge.calculateCenterFlotation; simpl; rewrite Hf; reflexivity. }
  assert (Hi : Barge.items b1 = Barge.items b).
  { unfold b1; now rewrite (proj1 (proj2 (calculateCenterFlotation_fields _))). }
  assert (Hfl : Barge.floats b1 = e :: others).
  { unfold b1; now rewrite (proj1 (calculateCenterFlotation_fields _)). }
  assert (Hn : Barge.nextFloatId b1 = Barge.nextFloatId b).
  { unfold b1; now rewrite (proj1 (proj2 (proj2 (calculateCenterFlotation_fields _)))). }
  assert (Ht : Barge.tiltX (tilted b1) = Barge.tiltX (tilted b)
               /\ Barge.tiltZ (tilted b1) = Barge.tiltZ (tilted b)).
  { destruct (tilted_tilt b1) as (-> & ->), (tilted_tilt b) as (-> & ->).
    rewrite Hi, Hc.
    destruct (Barge.items b); [|auto].
    unfold b1, Barge.calculateCenterFlotation; simpl; auto. }
  destruct Ht as (Htx & Htz).
  rewrite Hf in Hfs0; simpl in Hfs0.
  destruct (Barge.tiltFloat (tilted b) f) as [f0'|] eqn:Hhead; simpl in Hfs0;
    [|discriminate].
  destruct (forEach (Barge.tiltFloat (tilted b)) others) as [tail'|] eqn:Htail;
    simpl in Hfs0; [|discriminate].
  injection Hfs0 as -> ->.
  rewrite (update_fold b1 (Float.set_weight f0 w :: tail) its0).
  - rewrite Hn, Hc, Htx, Htz, E0; reflexivity.
  - rewrite Hfl; simpl.
    assert (He : Barge.tiltFloat (tilted b1) e = Some (Float.set_weight f0 w)).
    { unfold Barge.tiltFloat in *; rewrite Hc, Htx, Htz; unfold e; simpl.
      destruct (Float.restPosition f); [|discriminate].
      injection Hhead as <-; reflexivity. }
    rewrite He; simpl.
    rewrite (forEach_ext _ (Barge.tiltFloat (tilted b))), Htail; [reflexivity|].
    intros g; now apply tiltFloat_ext.
  - rewrite Hi, <- Hits0; apply forEach_ext; intros i.
    unfold Barge.placeItem; simpl; rewrite Hc, Htx, Htz; reflexivity.
Qed.

(** X23.  Editing the weight moves nothing: when the panel offers
    nothing new for the length, width, height, X and Z of pontoon 0 and
    the Y field does not have the focus, [updateFloatProperties] gives
    exactly the barge that [update] alone gives, with the weight of
    pontoon 0 replaced by the accepted one.  The vertical position that
    the handler computes from the new draft is overwritten by [update],
    which places the pontoon from its rest position. *)
Theorem updateFloatProperties_weight_only (b b0 : Barge.t) (input : PanelInput)
  (f f0 : Float.t) (others tail : list Float.t) :
  Barge.floats b = f :: others ->
  accepted (floatLength input) (Float.width f) = Float.width f ->
  accepted (floatWidth input) (Float.depth f) = Float.depth f ->
  accepted (floatHeight input) (Float.height f) = Float.height f ->
  (forall r, floatPosX input = Some r -> r = vx (Float.position f)) ->
  (forall r, floatPosZ input = Some r -> r = vz (Float.position f)) ->
  manualYChange input = false ->
  Barge.update b = Some b0 -> Barge.floats b0 = f0 :: tail ->
  updateFloatProperties b input
  = Some (Barge.set_floats b0
            (Float.set_weight f0 (accepted (floatWeight input) (Float.weight f))
             :: tail)).
Proof.
  intros Hf Hw Hd Hh Hx Hz Hm H0 Hf0.
  unfold updateFloatProperties; rewrite Hf, Hm.
  set (st1 := editPositive Float.set_width (floatLength input) (f, false)).
  set (st2 := editPositive Float.set_depth (floatWidth input) st1).
  set (st3 := editPositive Float.set_height (floatHeight input) st2).
  set (st4 := editPositive Float.set_weight (floatWeight input) st3).
  assert (E1 : fst st1 = f).
  { apply (editPositive_same Float.set_width Float.width);
      [exact set_width_same | exact Hw]. }
  assert (E2 : fst st2 = f).
  { transitivity (fst st1); [|exact E1].
    apply (editPositive_same Float.set_depth Float.depth);
      [exact set_depth_same | rewrite E1; exact Hd]. }
  assert (E3 : fst st3 = f).
  { transitivity (fst st2); [|exact E2].
    apply (editPositive_same Float.set_height Float.height);
      [exact set_height_same | rewrite E2; exact Hh]. }
  assert (E4 : fst st4
               = Float.set_weight f (accepted (floatWeight input) (Float.weight f))).
  { unfold st4; rewrite editPositive_weight_is, E3; reflexivity. }
  destruct st4 as [float4 recalculateY]; simpl in E4; subst float4.
  set (w := accepted (floatWeight input) (Float.weight f)).
  rewrite (editCoordinate_vx_same (floatPosX input) (Float.set_weight f w)) by exact Hx.
  rewrite (editCoordinate_vz_same (floatPosZ input) (Float.set_weight f w)) by exact Hz.
  rewrite Bool.andb_true_r.
  destruct recalculateY.
  - apply (update_reweighed b b0 f f0 others tail w _ Hf H0 Hf0).
  - replace (Float.set_weight f w)
      with (Float.set_position (Float.set_weight f w)
              (set_vy (Float.position f) (vy (Float.position f))))
      by (destruct f as [? ? ? ? ? ? [x y z] ? ?]; reflexivity).
    apply (update_reweighed b b0 f f0 others tail w _ Hf H0 Hf0).
Qed.

(** Doubling the weight of the default pontoon in the panel gives the
    barge that a frame without the edit gives, but for the weight. *)
Lemma updateFloatProperties_weight_only_witness :
  exists (b0 : Barge.t) (f0 : Float.t),
    Barge.update constructed = Some b0
    /\ Barge.floats b0 = [f0]
    /\ updateFloatProperties constructed
         (mkPanelInput (Some 20) (Some 10) (Some 7) (Some 40000) (Some 0) (Some 1.9)
                       (Some 0) false)
       = Some (Barge.set_floats b0 [Float.set_weight f0 40000]).
Proof.
  destruct update_constructed as (b0 & Hb0 & _ & _ & _ & (f0 & Hf0 & _) & _).
  exists b0, f0; split; [exact Hb0|]; split; [exact Hf0|].
  rewrite (updateFloatProperties_weight_only constructed b0
             (mkPanelInput (Some 20) (Some 10) (Some 7) (Some 40000) (Some 0)
                           (Some 1.9) (Some 0) false)
             defaultFloat f0 [] [] constructed_floats); auto.
  - simpl; destruct (Rlt_dec 0 40000); [reflexivity | lra].
  - simpl; destruct (Rlt_dec 0 20); reflexivity.
  - simpl; destruct (Rlt_dec 0 10); reflexivity.
  - simpl; destruct (Rlt_dec 0 7); reflexivity.
  - simpl; intros r [= <-]; reflexivity.
  - simpl; intros r [= <-]; reflexivity.
Defined.
